(** * go-i18n: translation table and language registry

    A shallow embedding of two packages of the repository:

    - package [i18n] (src/pkg/i18n/i18n.go): the process-wide translation
      table, the current locale, [SetLocale], [AddTranslation],
      [NewMessage] and [Message.String];
    - package [language]: the [Language]
      record, the built-in [languages] table with the CLDR plural function
      of every language, [lookup], [Register] and [PluralCategory].

    Package [plural] (the operand set and its extraction from a number)
    is embedded from the specification, and [msg.Id] is a parameter.

    Go strings are byte strings: they are embedded as Rocq [string]s
    (lists of 8-bit [ascii] characters).  Go maps are embedded as stdpp
    [gmap]s, Go [int64] operands as [Z]. *)

From Stdlib Require Import ZArith String Ascii List Lia.
From Stdlib Require QArith.
From stdpp Require Import base option gmap strings list.

Local Open Scope string_scope.

(** ** Package i18n *)

Module I18n.

(** [const defaultLocale = ""] *)
Definition defaultLocale : string := "".

(** The two package-level variables, [currentLocale] and [translations]
    ([map[string]map[string]string]: locale, then message id). *)
Record State : Type := mkState {
  currentLocale : string;
  translations : gmap string (gmap string string)
}.

(** The state of a freshly loaded package:
    [currentLocale = defaultLocale], [translations = make(...)]. *)
Definition init : State :=
  {| currentLocale := defaultLocale; translations := ∅ |}.

(** [type Message struct { id string }] *)
Record Message : Type := mkMessage { id : string }.

(** [translations[locale][i]] with its "comma ok" flag: reading a missing
    locale reads a nil inner map, which has no key. *)
Definition entry (st : State) (locale i : string) : option string :=
  translations st !! locale ≫= (λ inner, inner !! i).

(** [func SetLocale(locale string)] *)
Definition SetLocale (locale : string) (st : State) : State :=
  {| currentLocale := locale; translations := translations st |}.

(** [func (m *Message) String() string]: the translation in the current
    locale when the key is found, otherwise whatever the default locale
    holds for the id (the zero value [""] when it holds nothing). *)
Definition Message_String (m : Message) (st : State) : string :=
  match entry st (currentLocale st) (id m) with
  | Some t => t
  | None => default "" (entry st defaultLocale (id m))
  end.

Section WithMsgId.

(** [msg.Id] lives in package [msg], which computes the identifier of a
    message from its context and content. *)
Variable Id : string → string → string.

(** [func AddTranslation(locale, context, content, translation string) string] *)
Definition AddTranslation (locale context content translation : string)
    (st : State) : string * State :=
  let tr :=
    match translations st !! locale with
    | None => <[locale := ∅]> (translations st)
    | Some _ => translations st
    end in
  let i := Id context content in
  let inner := default ∅ (tr !! locale) in
  (i, {| currentLocale := currentLocale st;
         translations := <[locale := <[i := translation]> inner]> tr |}).

(** [func NewMessage(content, context string) *Message] *)
Definition NewMessage (content context : string) (st : State)
    : Message * State :=
  let '(i, st') := AddTranslation defaultLocale context content content st in
  ({| id := i |}, st').

(** The exported operations of the package, to speak about sequences of
    calls. *)
Inductive op : Type :=
| CallSetLocale (locale : string)
| CallAddTranslation (locale context content translation : string)
| CallNewMessage (content context : string)
| CallString (m : Message).

Definition exec (st : State) (o : op) : State :=
  match o with
  | CallSetLocale locale => SetLocale locale st
  | CallAddTranslation locale context content translation =>
      snd (AddTranslation locale context content translation st)
  | CallNewMessage content context => snd (NewMessage content context st)
  | CallString _ => st
  end.

Definition run (ops : list op) (st : State) : State := foldl exec st ops.

(** What a call writes to the table: the key and the stored string. *)
Definition written (o : op) : option (string * string * string) :=
  match o with
  | CallAddTranslation locale context content translation =>
      Some (locale, Id context content, translation)
  | CallNewMessage content context =>
      Some (defaultLocale, Id context content, content)
  | CallSetLocale _ | CallString _ => None
  end.

(** The string stored by the last call of [ops] that writes key
    [(locale, i)], if any. *)
Fixpoint last_write (ops : list op) (locale i : string) : option string :=
  match ops with
  | [] => None
  | o :: rest =>
      match last_write rest locale i with
      | Some t => Some t
      | None =>
          match written o with
          | Some (l, j, t) =>
              if decide (l = locale ∧ j = i) then Some t else None
          | None => None
          end
      end
  end.

(** A call keeps the default-locale entry of message id [i] at [content]:
    it either does not write that key or writes [content] again. *)
Definition keeps_default (i content : string) (o : op) : Prop :=
  match written o with
  | Some (l, j, t) => l = defaultLocale → j = i → t = content
  | None => True
  end.

End WithMsgId.


(** The round trip through [NewMessage] read over every later state:
    after any calls, a miss in the current locale prints the content. *)
Definition round_trip_always (Id : string → string → string) : Prop :=
  ∀ (st : State) (content context : string) (ops : list (op)),
    let m := fst (NewMessage Id content context st) in
    let st2 := run Id ops (snd (NewMessage Id content context st)) in
    entry st2 (currentLocale st2) (id m) = None →
    Message_String m st2 = content.

(** One identifier function, to run the operations on concrete inputs:
    context and content joined by a colon.  Every theorem below holds for
    any identifier function. *)
Definition sample_Id (context content : string) : string :=
  context +:+ ":" +:+ content.

End I18n.

(** ** Package plural *)

Module Plural.

(** [plural.Category] and the constants the [language] package uses:
    the six CLDR categories and [plural.Invalid], the value returned
    next to an error. *)
Inductive Category : Type :=
| Invalid | Zero | One | Two | Few | Many | Other.

#[global] Instance Category_eq_dec : EqDecision Category.
Proof. solve_decision. Defined.

Definition Category_code (c : Category) : nat :=
  match c with
  | Invalid => 0 | Zero => 1 | One => 2 | Two => 3
  | Few => 4 | Many => 5 | Other => 6
  end.

Definition Category_of_code (n : nat) : Category :=
  match n with
  | 0 => Invalid | 1 => Zero | 2 => One | 3 => Two
  | 4 => Few | 5 => Many | _ => Other
  end.

#[global] Instance Category_countable : Countable Category.
Proof.
  refine (inj_countable' Category_code Category_of_code _).
  intros c. destruct c; reflexivity.
Defined.

(** Modelled from the spec: the operand set of section 3 (the struct
    [plural.Operands] is declared in package [plural], outside the two
    packages embedded here).  [I], [V], [W], [F], [T] are the [int64]
    fields the plural functions read; [N] is the absolute value, kept as
    an exact rational in lowest terms. *)
Record Operands : Type := mkOperands {
  N : QArith_base.Q;
  I : Z;
  V : Z;
  W : Z;
  F : Z;
  T : Z
}.

(** Modelled from the spec: the numeric input of section 6, a tagged
    union; the integer and the decimal-string tags are embedded (a binary
    floating-point value has no exact decimal form to count digits of). *)
Inductive NumericInput : Type :=
| IntInput (z : Z)
| StringInput (s : string).

(** Modelled from the spec: the error of section 7. *)
Inductive error : Type := InvalidNumber.

Local Open Scope Z_scope.
Local Open Scope list_scope.

Definition is_digit (c : ascii) : bool :=
  (48 <=? nat_of_ascii c)%nat && (nat_of_ascii c <=? 57)%nat.

Definition digit_value (c : ascii) : Z := Z.of_nat (nat_of_ascii c) - 48.

Definition all_digits (ds : list ascii) : bool := forallb is_digit ds.

(** A digit string parsed as an integer; the empty string gives 0. *)
Definition parse_digits (ds : list ascii) : Z :=
  fold_left (λ acc c, 10 * acc + digit_value c) ds 0.

Definition is_zero_digit (c : ascii) : bool := Ascii.eqb c "0".

Fixpoint drop_zeros (ds : list ascii) : list ascii :=
  match ds with
  | [] => []
  | c :: rest => if is_zero_digit c then drop_zeros rest else ds
  end.

(** A digit string with its trailing zeros stripped. *)
Definition strip_trailing_zeros (ds : list ascii) : list ascii :=
  rev (drop_zeros (rev ds)).

(** [split_at p s] cuts [s] at the first byte satisfying [p]: the part
    before it, and the part after it when there is such a byte. *)
Fixpoint split_at (p : ascii → bool) (s : list ascii)
    : list ascii * option (list ascii) :=
  match s with
  | [] => ([], None)
  | c :: rest =>
      if p c then ([], Some rest)
      else let '(before, after) := split_at p rest in (c :: before, after)
  end.

Definition is_sign (c : ascii) : bool := Ascii.eqb c "-" || Ascii.eqb c "+".
Definition is_point (c : ascii) : bool := Ascii.eqb c ".".
Definition is_exp_marker (c : ascii) : bool :=
  Ascii.eqb c "e" || Ascii.eqb c "E".

Definition strip_sign (s : list ascii) : list ascii :=
  match s with
  | c :: rest => if is_sign c then rest else s
  | [] => []
  end.

Definition nonempty (ds : list ascii) : bool :=
  match ds with [] => false | _ :: _ => true end.

(** The exponent after the marker: an optional sign and at least one
    digit. *)
Definition parse_exponent (e : list ascii) : option Z :=
  match e with
  | c :: rest =>
      if Ascii.eqb c "-" then
        if nonempty rest && all_digits rest
        then Some (- parse_digits rest) else None
      else if Ascii.eqb c "+" then
        if nonempty rest && all_digits rest
        then Some (parse_digits rest) else None
      else if all_digits e then Some (parse_digits e) else None
  | [] => None
  end.

(** Expansion of exponential notation to positional form: the decimal
    point between the integer digits [ip] and the fraction digits [fp]
    moves [e] places to the right (to the left when [e] is negative),
    padding with zeros. *)
Definition shift_point (ip fp : list ascii) (e : Z)
    : list ascii * list ascii :=
  if (0 <=? e)%Z then
    let n := Z.to_nat e in
    (ip ++ take n fp ++ repeat "0"%char (n - length fp), drop n fp)
  else
    let n := Z.to_nat (- e) in
    (take (length ip - n) ip,
     repeat "0"%char (n - length ip) ++ drop (length ip - n) ip ++ fp).

(** Modelled from the spec: step 1 of the OperandExtractor algorithm
    (section 4.1).  A decimal string is normalised to a sign-stripped
    integer-digit string and a fraction-digit string; [None] when the
    string is not a well-formed number. *)
Definition decimal_form (s : list ascii)
    : option (list ascii * list ascii) :=
  let '(mantissa, ex) := split_at is_exp_marker (strip_sign s) in
  let '(ip, frac) := split_at is_point mantissa in
  let fp := default [] frac in
  if all_digits ip && all_digits fp && nonempty (ip ++ fp) then
    match ex with
    | None => Some (ip, fp)
    | Some e =>
        match parse_exponent e with
        | Some k => Some (shift_point ip fp k)
        | None => None
        end
    end
  else None.

(** Modelled from the spec: steps 2 to 7 of the OperandExtractor
    algorithm; [i] and [f] are the digit strings parsed as integers, [v]
    the length of the fraction-digit string, [w] and [t] the same after
    stripping trailing zeros, [n] the value of the whole decimal. *)
Definition operands_of_digits (ip fp : list ascii) : Operands :=
  let i := parse_digits ip in
  let v := Z.of_nat (length fp) in
  let stripped := strip_trailing_zeros fp in
  let f := parse_digits fp in
  {| N := Qreduction.Qred
            (QArith_base.Qmake (i * 10 ^ v + f) (Z.to_pos (10 ^ v)));
     I := i;
     V := v;
     W := Z.of_nat (length stripped);
     F := f;
     T := parse_digits stripped |}.

(** Modelled from the spec: [plural.NewOperands], the OperandExtractor
    of section 4.1 (the function is defined in package [plural]).  An
    integer yields its absolute value and no fraction digits; a string
    goes through [decimal_form] and fails with [InvalidNumber] when it is
    not a well-formed number. *)
Definition NewOperands (number : NumericInput) : Operands + error :=
  match number with
  | IntInput z =>
      inl {| N := QArith_base.Qmake (Z.abs z) 1; I := Z.abs z;
             V := 0; W := 0; F := 0; T := 0 |}
  | StringInput s =>
      match decimal_form (list_ascii_of_string s) with
      | Some (ip, fp) => inl (operands_of_digits ip fp)
      | None => inr InvalidNumber
      end
  end.

(** The parts of a decimal-formatted string: an optional sign, digits,
    an optional fraction (a point and its digits [fp]), an optional
    exponent (a marker, an optional sign and at least one digit). *)
Definition sign_part (sg : list ascii) : Prop :=
  sg = [] ∨ sg = ["-"%char] ∨ sg = ["+"%char].

Definition digit_string (ds : list ascii) : Prop :=
  Forall (λ c, is_digit c = true) ds.

Inductive fraction_part : list ascii → list ascii → Prop :=
| no_fraction : fraction_part [] []
| some_fraction fp :
    digit_string fp → fraction_part ("."%char :: fp) fp.

Inductive exponent_part : list ascii → Prop :=
| no_exponent : exponent_part []
| some_exponent marker esg eds :
    is_exp_marker marker = true → sign_part esg →
    digit_string eds → eds ≠ [] →
    exponent_part (marker :: esg ++ eds).

(** Modelled from the spec: a well-formed number in the words of section
    4.1, "a decimal-formatted string (optionally signed, optionally with a
    fractional part, optionally in exponential notation)", with at least
    one digit before the exponent. *)
Inductive well_formed_number : list ascii → Prop :=
| wf_number sg ip frac fp ex :
    sign_part sg → digit_string ip → fraction_part frac fp →
    ip ++ fp ≠ [] → exponent_part ex →
    well_formed_number (sg ++ ip ++ frac ++ ex).

End Plural.

(** ** Package strings of the Go library, as far as [lookup] uses it *)

Module Strings.

Local Open Scope list_scope.

(** The UTF-8 encodings of the runes for which [unicode.IsSpace] holds:
    U+0009 to U+000D, U+0020, U+0085, U+00A0, U+1680, U+2000 to U+200A,
    U+2028, U+2029, U+202F, U+205F and U+3000. *)
Definition is_space_rune (bs : list ascii) : bool :=
  match map nat_of_ascii bs with
  | [b] => ((9 <=? b) && (b <=? 13)) || (b =? 32)
  | [194; b] => (b =? 133) || (b =? 160)
  | [225; 154; 128] => true
  | [226; 128; b] =>
      ((128 <=? b) && (b <=? 138)) || (b =? 168) || (b =? 169) || (b =? 175)
  | [226; 129; 159] => true
  | [227; 128; 128] => true
  | _ => false
  end%nat.

(** Length in bytes of the white-space rune at the head of [bs], 0 when
    [bs] does not start with one. *)
Definition leading_space (bs : list ascii) : nat :=
  if is_space_rune (take 1 bs) then 1
  else if is_space_rune (take 2 bs) then 2
  else if is_space_rune (take 3 bs) then 3
  else 0.

(** The same at the end of a string, given reversed: [rbs] is the byte
    string read backwards. *)
Definition trailing_space (rbs : list ascii) : nat :=
  if is_space_rune (rev (take 1 rbs)) then 1
  else if is_space_rune (rev (take 2 rbs)) then 2
  else if is_space_rune (rev (take 3 rbs)) then 3
  else 0.

(** Repeatedly removes the rune measured by [width] from the head;
    [fuel] bounds the number of runes removed. *)
Fixpoint trim_with (width : list ascii → nat) (fuel : nat)
    (bs : list ascii) : list ascii :=
  match fuel with
  | O => bs
  | S fuel' =>
      match width bs with
      | O => bs
      | S k => trim_with width fuel' (drop (S k) bs)
      end
  end.

(** [strings.TrimSpace]: all leading and trailing white space removed. *)
Definition TrimSpace (s : string) : string :=
  let bs := list_ascii_of_string s in
  let bs := trim_with leading_space (length bs) bs in
  let rbs := trim_with trailing_space (length bs) (rev bs) in
  string_of_list_ascii (rev rbs).

(** [strings.Replace(s, old, new, -1)] for one-byte [old] and [new]:
    every occurrence is replaced. *)
Fixpoint Replace (s : string) (old new : ascii) : string :=
  match s with
  | EmptyString => EmptyString
  | String c rest =>
      String (if Ascii.eqb c old then new else c) (Replace rest old new)
  end.

(** Index of the last occurrence of byte [sep] in [s] counted from
    position [pos], with [found] the answer so far. *)
Fixpoint last_index_from (s : string) (sep : ascii) (pos found : Z) : Z :=
  match s with
  | EmptyString => found
  | String c rest =>
      last_index_from rest sep (pos + 1)
        (if Ascii.eqb c sep then pos else found)
  end.

(** [strings.LastIndex(s, sep)] for a one-byte [sep]: the index of its
    last occurrence, or -1. *)
Definition LastIndex (s : string) (sep : ascii) : Z :=
  last_index_from s sep 0 (-1).

(** The slice expression [s[:hi]]. *)
Definition slice_to (s : string) (hi : Z) : string :=
  substring 0 (Z.to_nat hi) s.

(** What [Replace(s, "_", "-", -1)] does to one byte. *)
Definition to_dash (c : ascii) : ascii :=
  if Ascii.eqb c "_" then "-"%char else c.

(** The slice expression [s[lo:hi]], for [0 <= lo <= hi <= len(s)]. *)
Definition slice (s : string) (lo hi : Z) : string :=
  substring (Z.to_nat lo) (Z.to_nat (hi - lo)) s.

End Strings.

(** ** Package language *)

Module Language.

Local Open Scope Z_scope.

(** [type Language struct] *)
Record Language : Type := mkLanguage {
  ID : string;
  Name : string;
  PluralCategories : gset Plural.Category;
  PluralFunc : Plural.Operands → Plural.Category
}.

(** [func newSet(pluralCategories ...plural.Category) map[plural.Category]struct{}] *)
Definition newSet (pluralCategories : list Plural.Category)
    : gset Plural.Category :=
  foldl (λ set pc, {[pc]} ∪ set) ∅ pluralCategories.

(** The plural functions of the built-in table, in the order of the
    source.  Go's [%] on [int64] is the truncated remainder [Z.rem]. *)

Definition ar_PluralFunc (ops : Plural.Operands) : Plural.Category :=
  if Plural.W ops =? 0 then
    if Plural.I ops =? 0 then Plural.Zero
    else if Plural.I ops =? 1 then Plural.One
    else if Plural.I ops =? 2 then Plural.Two
    else
      let mod100 := Z.rem (Plural.I ops) 100 in
      if (3 <=? mod100) && (mod100 <=? 10) then Plural.Few
      else if 11 <=? mod100 then Plural.Many
      else Plural.Other
  else Plural.Other.

(** Catalan, Dutch, English, German, Italian, Portuguese (European). *)
Definition one_integer_PluralFunc (ops : Plural.Operands) : Plural.Category :=
  if (Plural.I ops =? 1) && (Plural.V ops =? 0) then Plural.One
  else Plural.Other.

(** Chinese, Japanese. *)
Definition other_PluralFunc (ops : Plural.Operands) : Plural.Category :=
  Plural.Other.

Definition cs_PluralFunc (ops : Plural.Operands) : Plural.Category :=
  if (Plural.I ops =? 1) && (Plural.V ops =? 0) then Plural.One
  else if (2 <=? Plural.I ops) && (Plural.I ops <=? 4) && (Plural.V ops =? 0)
  then Plural.Few
  else if 0 <? Plural.V ops then Plural.Many
  else Plural.Other.

Definition da_PluralFunc (ops : Plural.Operands) : Plural.Category :=
  if (Plural.I ops =? 1)
     || ((Plural.I ops =? 0) && negb (Plural.T ops =? 0))
  then Plural.One
  else Plural.Other.

Definition fr_PluralFunc (ops : Plural.Operands) : Plural.Category :=
  if (Plural.I ops =? 0) || (Plural.I ops =? 1) then Plural.One
  else Plural.Other.

Definition lt_PluralFunc (ops : Plural.Operands) : Plural.Category :=
  if negb (Plural.F ops =? 0) then Plural.Many
  else
    let mod100 := Z.rem (Plural.I ops) 100 in
    if (mod100 <? 11) || (19 <? mod100) then
      let mod10 := Z.rem (Plural.I ops) 10 in
      if mod10 =? 0 then Plural.Other
      else if mod10 =? 1 then Plural.One
      else Plural.Few
    else Plural.Other.

Definition pt_BR_PluralFunc (ops : Plural.Operands) : Plural.Category :=
  if ((Plural.I ops =? 1) && (Plural.V ops =? 0))
     || ((Plural.I ops =? 0) && (Plural.T ops =? 1))
  then Plural.One
  else Plural.Other.

Definition es_PluralFunc (ops : Plural.Operands) : Plural.Category :=
  if (Plural.I ops =? 1) && (Plural.W ops =? 0) then Plural.One
  else Plural.Other.

(** An entry of the table literal: [Name] is left at its zero value. *)
Definition builtin (id : string) (cats : list Plural.Category)
    (f : Plural.Operands → Plural.Category) : string * Language :=
  (id, {| ID := id; Name := ""; PluralCategories := newSet cats;
          PluralFunc := f |}).

(** [var languages = map[string]*Language{...}], alphabetical by English
    name as in the source. *)
Definition languages : gmap string Language :=
  list_to_map [
    builtin "ar" [Plural.Zero; Plural.One; Plural.Two; Plural.Few;
                  Plural.Many; Plural.Other] ar_PluralFunc;
    builtin "ca" [Plural.One; Plural.Other] one_integer_PluralFunc;
    builtin "zh" [Plural.Other] other_PluralFunc;
    builtin "cs" [Plural.One; Plural.Few; Plural.Many; Plural.Other]
                 cs_PluralFunc;
    builtin "da" [Plural.One; Plural.Other] da_PluralFunc;
    builtin "nl" [Plural.One; Plural.Other] one_integer_PluralFunc;
    builtin "en" [Plural.One; Plural.Other] one_integer_PluralFunc;
    builtin "fr" [Plural.One; Plural.Other] fr_PluralFunc;
    builtin "de" [Plural.One; Plural.Other] one_integer_PluralFunc;
    builtin "it" [Plural.One; Plural.Other] one_integer_PluralFunc;
    builtin "ja" [Plural.Other] other_PluralFunc;
    builtin "lt" [Plural.One; Plural.Few; Plural.Many; Plural.Other]
                 lt_PluralFunc;
    builtin "pt" [Plural.One; Plural.Other] one_integer_PluralFunc;
    builtin "pt-BR" [Plural.One; Plural.Other] pt_BR_PluralFunc;
    builtin "es" [Plural.One; Plural.Other] es_PluralFunc
  ].

(** The two normalisation steps at the head of [lookup]:
    [strings.TrimSpace] and [strings.Replace(languageID, "_", "-", -1)]. *)
Definition normalize (languageID : string) : string :=
  Strings.Replace (Strings.TrimSpace languageID) "_" "-".

(** [func lookup(languageID string) *Language], on a registry [reg] (the
    package variable [languages] at the time of the call).  The recursive
    call is on a strictly shorter string; [fuel] counts the calls left. *)
Fixpoint lookup_fuel (fuel : nat) (reg : gmap string Language)
    (languageID : string) : option Language :=
  let languageID := normalize languageID in
  match reg !! languageID with
  | Some found => Some found
  | None =>
      let end_ := Strings.LastIndex languageID "-" in
      if 0 <=? end_ then
        match fuel with
        | O => None
        | S fuel' => lookup_fuel fuel' reg (Strings.slice_to languageID end_)
        end
      else None
  end.

Definition lookup (reg : gmap string Language) (languageID : string)
    : option Language :=
  lookup_fuel (String.length languageID) reg languageID.

(** [func Register(l *Language)] *)
Definition Register (l : Language) (reg : gmap string Language)
    : gmap string Language :=
  <[ID l := l]> reg.

(** [func (l *Language) PluralCategory(number interface{}) (plural.Category, error)] *)
Definition PluralCategory (l : Language) (number : Plural.NumericInput)
    : Plural.Category * option Plural.error :=
  match Plural.NewOperands number with
  | inr err => (Plural.Invalid, Some err)
  | inl ops => (PluralFunc l ops, None)
  end.

(** The identifiers [lookup] tries, in order: the normalised identifier,
    then what is left of it before its last dash, normalised again, and
    so on while there is a dash. *)
Fixpoint candidates (fuel : nat) (languageID : string) : list string :=
  let languageID := normalize languageID in
  languageID ::
    (let end_ := Strings.LastIndex languageID "-" in
     if 0 <=? end_ then
       match fuel with
       | O => []
       | S fuel' => candidates fuel' (Strings.slice_to languageID end_)
       end
     else []).

(** The lookup in the words of the specification: the first candidate
    that is registered, or nothing. *)
Fixpoint first_registered (reg : gmap string Language)
    (ids : list string) : option Language :=
  match ids with
  | [] => None
  | i :: rest =>
      match reg !! i with
      | Some l => Some l
      | None => first_registered reg rest
      end
  end.

(** The plural function of a definition stays within its declared
    categories, [Other] being always allowed (section 3 of the
    specification). *)
Definition declared_or_other (l : Language) (c : Plural.Category) : Prop :=
  c ∈ PluralCategories l ∨ c = Plural.Other.

Definition respects_declared (l : Language) : Prop :=
  ∀ ops, declared_or_other l (PluralFunc l ops).

(** The registries the package can hold: the built-in table, extended by
    [Register] with definitions that respect their declared categories. *)
Inductive registry : gmap string Language → Prop :=
| registry_builtin : registry languages
| registry_Register reg l :
    registry reg → respects_declared l → registry (Register l reg).

(** A definition [Register] accepts although its plural function leaves
    its declared set: it declares [One] and always returns [Few]. *)
Definition undeclared_few : Language :=
  {| ID := "xx"; Name := ""; PluralCategories := newSet [Plural.One];
     PluralFunc := λ _, Plural.Few |}.

(** The English entry of the table and a registry that only knows
    European Portuguese, for concrete runs. *)
Definition en : Language :=
  snd (builtin "en" [Plural.One; Plural.Other] one_integer_PluralFunc).

Definition pt : Language :=
  snd (builtin "pt" [Plural.One; Plural.Other] one_integer_PluralFunc).

Definition only_pt : gmap string Language := Register pt ∅.

(** [func (l *Language) String() string] *)
Definition Language_String (l : Language) : string := ID l.

(** The two cases of the [switch] in [Parse]: the bytes that end a
    candidate, and the bytes that only start a new one. *)
Definition is_terminator (chr : ascii) : bool :=
  Ascii.eqb chr "," || Ascii.eqb chr ";" || Ascii.eqb chr ".".

Definition is_separator (chr : ascii) : bool :=
  Ascii.eqb chr "/" || Ascii.eqb chr "092".

Definition is_delimiter (chr : ascii) : bool :=
  is_terminator chr || is_separator chr.

(** The loop of [Parse], [for end, chr := range lang], from byte index
    [end_] on, [rest] being [lang[end_:]], followed by the statements
    after the loop.  The loop ranges over runes; the five runes of the
    [switch] are ASCII, an ASCII byte is never part of the encoding of
    another rune and is decoded as itself with its own index, so the loop
    is the same over bytes. *)
Fixpoint Parse_from (reg : gmap string Language) (lang rest : string)
    (start end_ : Z) : option Language :=
  match rest with
  | EmptyString =>
      if 0 <? start then None else lookup reg lang
  | String chr rest' =>
      if is_terminator chr then
        match lookup reg (Strings.slice lang start end_) with
        | Some found => Some found
        | None => Parse_from reg lang rest' (end_ + 1) (end_ + 1)
        end
      else if is_separator chr then
        Parse_from reg lang rest' (end_ + 1) (end_ + 1)
      else Parse_from reg lang rest' start (end_ + 1)
  end.

(** [func Parse(lang string) *Language] *)
Definition Parse (reg : gmap string Language) (lang : string)
    : option Language :=
  Parse_from reg lang lang 0 0.

(** [func MustParse(lang string) *Language]: the language, or the panic
    with the error made from [lang]. *)
Definition MustParse (reg : gmap string Language) (lang : string)
    : Language + string :=
  match Parse reg lang with
  | Some l => inl l
  | None => inr lang
  end.

(** The registries [Register] can build from the built-in table, with
    any definitions. *)
Inductive reachable : gmap string Language → Prop :=
| reachable_builtin : reachable languages
| reachable_Register reg l : reachable reg → reachable (Register l reg).

(** A string without a byte satisfying [p]. *)
Definition free_of (p : ascii → bool) (s : string) : Prop :=
  Forall (λ c, p c = false) (list_ascii_of_string s).

(** A string with no white space in front and no underscore, as
    [normalize] returns them. *)
Definition trimmed_left (c : string) : Prop :=
  Strings.leading_space (list_ascii_of_string c) = 0%nat
  ∧ "_"%char ∉ list_ascii_of_string c.

(** The operand set of the integer [i], and of the decimal 1.5. *)
Definition int_ops (i : Z) : Plural.Operands :=
  {| Plural.N := QArith_base.Qmake i 1; Plural.I := i; Plural.V := 0;
     Plural.W := 0; Plural.F := 0; Plural.T := 0 |}.

Definition one_and_a_half : Plural.Operands :=
  {| Plural.N := QArith_base.Qmake 3 2; Plural.I := 1; Plural.V := 1;
     Plural.W := 1; Plural.F := 5; Plural.T := 5 |}.

End Language.

(** * Properties of package i18n *)

Section I18nFacts.

Import I18n.

Variable Id : string → string → string.

Lemma State_eq (s1 s2 : State) :
  currentLocale s1 = currentLocale s2 → translations s1 = translations s2 →
  s1 = s2.
Proof. destruct s1, s2; simpl; congruence. Qed.

Lemma AddTranslation_id locale context content translation st :
  fst (AddTranslation Id locale context content translation st)
  = Id context content.
Proof. reflexivity. Qed.

Lemma AddTranslation_currentLocale locale context content translation st :
  currentLocale (snd (AddTranslation Id locale context content translation st))
  = currentLocale st.
Proof. reflexivity. Qed.

(** The nil check of [AddTranslation] only matters for the inner map that
    is extended: the table afterwards is the old one with the inner map of
    [locale] updated at the message id. *)
Lemma AddTranslation_translations locale context content translation st :
  translations (snd (AddTranslation Id locale context content translation st))
  = <[locale := <[Id context content := translation]>
                  (default ∅ (translations st !! locale))]> (translations st).
Proof.
  unfold AddTranslation; simpl.
  destruct (translations st !! locale) as [inner|] eqn:E.
  - by rewrite E.
  - rewrite lookup_insert_eq. simpl. by rewrite insert_insert_eq.
Qed.

Lemma entry_AddTranslation locale context content translation st l i :
  entry (snd (AddTranslation Id locale context content translation st)) l i
  = if decide (locale = l ∧ Id context content = i) then Some translation
    else entry st l i.
Proof.
  unfold entry. rewrite AddTranslation_translations.
  destruct (decide (locale = l)) as [->|Hl].
  - rewrite lookup_insert_eq. simpl.
    destruct (decide (Id context content = i)) as [->|Hi].
    + rewrite lookup_insert_eq. by rewrite decide_True.
    + rewrite lookup_insert_ne by done.
      rewrite decide_False by tauto.
      by destruct (translations st !! l).
  - rewrite lookup_insert_ne by done. rewrite decide_False by tauto. done.
Qed.

Lemma entry_SetLocale locale st l i :
  entry (SetLocale locale st) l i = entry st l i.
Proof. reflexivity. Qed.

Lemma entry_exec st o l i :
  entry (exec Id st o) l i
  = match written Id o with
    | Some (l', j, t) =>
        if decide (l' = l ∧ j = i) then Some t else entry st l i
    | None => entry st l i
    end.
Proof.
  destruct o; simpl; try done.
  - apply entry_AddTranslation.
  - unfold NewMessage.
    apply (entry_AddTranslation defaultLocale context content content).
Qed.

Lemma run_cons o ops st : run Id (o :: ops) st = run Id ops (exec Id st o).
Proof. reflexivity. Qed.

(** C1: registration is last-write-wins and an idempotent overwrite.
    Registering [old] and then [new] for the same locale, context and
    content returns the same id both times; the table then holds [new]
    under that key, [Message.String] under that locale returns [new], the
    state is the one reached by registering [new] alone, and registering
    [old] a second time right after the first changes nothing. *)
Theorem AddTranslation_last_write_wins
    (st : State) (locale context content old new : string) :
  let '(i1, st1) := AddTranslation Id locale context content old st in
  let '(i2, st2) := AddTranslation Id locale context content new st1 in
  i2 = i1
  ∧ entry st2 locale i2 = Some new
  ∧ Message_String {| id := i2 |} (SetLocale locale st2) = new
  ∧ st2 = snd (AddTranslation Id locale context content new st)
  ∧ AddTranslation Id locale context content old st1 = (i1, st1).
Proof.
  destruct (AddTranslation Id locale context content old st)
    as [i1 st1] eqn:E1.
  destruct (AddTranslation Id locale context content new st1)
    as [i2 st2] eqn:E2.
  assert (Hi1 : i1 = Id context content) by (by inversion E1).
  assert (Hi2 : i2 = Id context content) by (by inversion E2).
  assert (Hst1 : st1 = snd (AddTranslation Id locale context content old st))
    by (by rewrite E1).
  assert (Hst2 : st2 = snd (AddTranslation Id locale context content new st1))
    by (by rewrite E2).
  assert (He : entry st2 locale i2 = Some new).
  { rewrite Hst2, entry_AddTranslation, decide_True; [done | by rewrite Hi2]. }
  split; [congruence|]. split; [done|]. split.
  { unfold Message_String. simpl. rewrite entry_SetLocale.
    simpl. by rewrite He. }
  split.
  - rewrite Hst2. apply State_eq; [by rewrite Hst1|].
    rewrite !AddTranslation_translations, Hst1.
    rewrite AddTranslation_translations, lookup_insert_eq. simpl.
    by rewrite !insert_insert_eq.
  - rewrite Hi1. apply injective_projections; [done|]. simpl.
    apply State_eq; [done|].
    change (translations
              (snd (AddTranslation Id locale context content old st1))
            = translations st1).
    rewrite AddTranslation_translations, Hst1.
    rewrite AddTranslation_translations, lookup_insert_eq. simpl.
    by rewrite !insert_insert_eq.
Qed.

(** C3: the table is a function of the key (locale, id) and only
    registration writes to it.  [SetLocale] and [Message.String] leave the
    table as it is, and after any sequence of calls the entry at a key is
    the string of the last call that registered it ([AddTranslation], also
    inside [NewMessage]), or the entry it had before when no call did. *)
Theorem translations_written_only_by_registration
    (ops : list op) (st : State) (locale l i : string) (m : Message) :
  translations (SetLocale locale st) = translations st
  ∧ exec Id st (CallString m) = st
  ∧ entry (run Id ops st) l i
    = match last_write Id ops l i with
      | Some t => Some t
      | None => entry st l i
      end.
Proof.
  split; [done|]. split; [done|].
  revert st. induction ops as [|o ops IH]; intros st; [done|].
  rewrite run_cons, IH. simpl.
  destruct (last_write Id ops l i); [done|].
  rewrite entry_exec.
  destruct (written Id o) as [[[l' j] t]|]; [|done].
  by destruct (decide (l' = l ∧ j = i)).
Qed.

(** A sequence of calls without a registration leaves the whole table
    unchanged, not only its entries. *)
Lemma run_without_registration (ops : list op) (st : State) :
  Forall (λ o, written Id o = None) ops →
  translations (run Id ops st) = translations st.
Proof.
  intros H. revert st. induction H as [|o ops Ho _ IH]; intros st; [done|].
  rewrite run_cons, IH. by destruct o.
Qed.

(** C10: frame conditions.  [SetLocale] replaces the current locale and
    keeps the table; [AddTranslation] returns the id of its message, keeps
    the current locale, keeps the entry of every other key (locale, id),
    and keeps the inner map of every other locale. *)
Theorem SetLocale_AddTranslation_frame
    (st : State) (newLocale locale context content translation : string)
    (l i : string) :
  (l, i) ≠ (locale, Id context content) →
  SetLocale newLocale st
    = {| currentLocale := newLocale; translations := translations st |}
  ∧ fst (AddTranslation Id locale context content translation st)
    = Id context content
  ∧ currentLocale
      (snd (AddTranslation Id locale context content translation st))
    = currentLocale st
  ∧ entry (snd (AddTranslation Id locale context content translation st)) l i
    = entry st l i
  ∧ (l ≠ locale →
     translations
       (snd (AddTranslation Id locale context content translation st)) !! l
     = translations st !! l).
Proof.
  intros Hne. split; [done|]. split; [done|]. split; [done|]. split.
  - rewrite entry_AddTranslation, decide_False; [done|].
    intros [? ?]. apply Hne. congruence.
  - intros Hl. rewrite AddTranslation_translations.
    by rewrite lookup_insert_ne.
Qed.


Lemma default_entry_kept (ops : list op) (st : State) (i content : string) :
  Forall (keeps_default Id i content) ops →
  entry st defaultLocale i = Some content →
  entry (run Id ops st) defaultLocale i = Some content.
Proof.
  intros H. revert st. induction H as [|o ops Ho _ IH]; intros st Hst; [done|].
  rewrite run_cons. apply IH. rewrite entry_exec. unfold keeps_default in Ho.
  destruct (written Id o) as [[[l' j] t]|]; [|done].
  destruct (decide (l' = defaultLocale ∧ j = i)) as [[Hl Hj]|]; [|done].
  by rewrite (Ho Hl Hj).
Qed.

(** C9, as the code has it: round trip through [NewMessage].  The message
    returned by [NewMessage(content, context)] is registered under the
    default locale with [content] as its translation; while that
    registration stands (the calls made since did not store another
    string under it), [Message.String] returns [content] whenever the
    current locale has no translation for the id of the message, and also
    when the current locale is the default one. *)
Theorem NewMessage_round_trip
    (st : State) (content context : string) (ops : list op)
    (m : Message) (st1 : State) :
  NewMessage Id content context st = (m, st1) →
  Forall (keeps_default Id (id m) content) ops →
  entry (run Id ops st1) (currentLocale (run Id ops st1)) (id m) = None
    ∨ currentLocale (run Id ops st1) = defaultLocale →
  entry st1 defaultLocale (id m) = Some content
  ∧ Message_String m (run Id ops st1) = content.
Proof.
  unfold NewMessage.
  destruct (AddTranslation Id defaultLocale context content content st)
    as [i st'] eqn:E.
  intros [= <- <-] Hops Hcur. simpl in *.
  assert (H1 : entry st' defaultLocale i = Some content).
  { replace st' with (snd (AddTranslation Id defaultLocale context content
                             content st)) by (by rewrite E).
    rewrite entry_AddTranslation, decide_True; [done|]. by inversion E. }
  split; [done|].
  pose proof (default_entry_kept ops st' i content Hops H1) as H2.
  unfold Message_String. simpl.
  destruct Hcur as [Hmiss | Hdef].
  - by rewrite Hmiss, H2.
  - by rewrite Hdef, H2.
Qed.

End I18nFacts.

(** A run of the package: the message "Hello" is created, a French
    translation of another message is registered, the locale is set to
    French; French has no translation of "Hello". *)
Lemma NewMessage_round_trip_witness :
  let m := fst (I18n.NewMessage I18n.sample_Id "Hello" "greeting" I18n.init) in
  let st := I18n.run I18n.sample_Id
              [I18n.CallAddTranslation "fr" "farewell" "Bye" "Au revoir";
               I18n.CallSetLocale "fr"]
              (snd (I18n.NewMessage I18n.sample_Id "Hello" "greeting"
                      I18n.init)) in
  I18n.entry st (I18n.currentLocale st) (I18n.id m) = None
  ∧ I18n.Message_String m st = "Hello".
Proof.
  split; [vm_compute; reflexivity|].
  eapply (NewMessage_round_trip I18n.sample_Id I18n.init "Hello" "greeting").
  - reflexivity.
  - repeat constructor. intros H. discriminate H.
  - left. vm_compute. reflexivity.
Defined.

Lemma SetLocale_AddTranslation_frame_witness :
  ("fr", "greeting:Hello") ≠ ("de", I18n.sample_Id "greeting" "Hello")
  ∧ I18n.entry
      (snd (I18n.AddTranslation I18n.sample_Id "de" "greeting" "Hello" "Hallo"
              (snd (I18n.AddTranslation I18n.sample_Id "fr" "greeting" "Hello"
                      "Bonjour" I18n.init))))
      "fr" "greeting:Hello"
    = Some "Bonjour".
Proof.
  assert (H : ("fr", "greeting:Hello")
              ≠ ("de", I18n.sample_Id "greeting" "Hello"))
    by (intros E; discriminate E).
  split; [exact H|].
  destruct (SetLocale_AddTranslation_frame I18n.sample_Id
              (snd (I18n.AddTranslation I18n.sample_Id "fr" "greeting" "Hello"
                      "Bonjour" I18n.init))
              "de" "de" "greeting" "Hello" "Hallo" "fr" "greeting:Hello" H)
    as (_ & _ & _ & -> & _).
  vm_compute. reflexivity.
Defined.



(** * Properties of the string functions *)

Section StringsFacts.

Import Strings.

Lemma length_string_of_list_ascii (bs : list ascii) :
  String.length (string_of_list_ascii bs) = length bs.
Proof. induction bs; simpl; congruence. Qed.

Lemma length_list_ascii_of_string (s : string) :
  length (list_ascii_of_string s) = String.length s.
Proof. induction s; simpl; congruence. Qed.

Lemma length_trim_with width fuel (bs : list ascii) :
  (length (trim_with width fuel bs) ≤ length bs)%nat.
Proof.
  revert bs. induction fuel as [|fuel IH]; intros bs; simpl; [lia|].
  destruct (width bs) as [|k]; [lia|].
  etransitivity; [apply IH|]. rewrite length_drop. lia.
Qed.

Lemma length_TrimSpace (s : string) :
  (String.length (TrimSpace s) ≤ String.length s)%nat.
Proof.
  unfold TrimSpace.
  rewrite length_string_of_list_ascii, length_rev.
  etransitivity; [apply length_trim_with|]. rewrite length_rev.
  etransitivity; [apply length_trim_with|].
  by rewrite length_list_ascii_of_string.
Qed.

Lemma length_Replace (s : string) (old new : ascii) :
  String.length (Replace s old new) = String.length s.
Proof. induction s; simpl; congruence. Qed.

(** [LastIndex] by recursion on the string. *)
Lemma last_index_from_shift (s : string) (sep : ascii) (pos found : Z) :
  last_index_from s sep pos found
  = (if LastIndex s sep <? 0 then found else pos + LastIndex s sep)%Z.
Proof.
  unfold LastIndex. revert pos found.
  induction s as [|c s IH]; intros pos found; simpl; [done|].
  rewrite (IH (pos + 1)%Z), (IH (0 + 1)%Z).
  destruct (last_index_from s sep 0 (-1) <? 0)%Z eqn:E.
  - destruct (Ascii.eqb c sep); simpl; [f_equal; lia | done].
  - apply Z.ltb_ge in E.
    destruct (0 + 1 + last_index_from s sep 0 (-1) <? 0)%Z eqn:E'; [lia|].
    lia.
Qed.

Lemma LastIndex_cons (c : ascii) (s : string) (sep : ascii) :
  LastIndex (String c s) sep
  = (if LastIndex s sep <? 0
     then (if Ascii.eqb c sep then 0 else -1)
     else 1 + LastIndex s sep)%Z.
Proof.
  unfold LastIndex at 1. simpl. by rewrite last_index_from_shift.
Qed.

Lemma LastIndex_bounds (s : string) (sep : ascii) :
  (-1 ≤ LastIndex s sep < Z.of_nat (String.length s))%Z.
Proof.
  induction s as [|c s IH]; [unfold LastIndex; simpl; lia|].
  rewrite LastIndex_cons. simpl String.length.
  destruct (LastIndex s sep <? 0)%Z eqn:E.
  - destruct (Ascii.eqb c sep); lia.
  - apply Z.ltb_ge in E. lia.
Qed.

(** When [sep] occurs, the string is [s[:end]], then [sep], then a rest
    without [sep]. *)
Lemma LastIndex_split (s : string) (sep : ascii) :
  (0 ≤ LastIndex s sep)%Z →
  ∃ rest, s = slice_to s (LastIndex s sep) +:+ String sep rest
          ∧ LastIndex rest sep = (-1)%Z.
Proof.
  induction s as [|c s IH]; [unfold LastIndex; simpl; lia|].
  rewrite LastIndex_cons.
  destruct (LastIndex s sep <? 0)%Z eqn:E.
  - destruct (Ascii.eqb_spec c sep) as [->|]; [|lia].
    intros _. exists s. split; [done|].
    apply Z.ltb_lt in E. pose proof (LastIndex_bounds s sep). lia.
  - apply Z.ltb_ge in E. intros _. destruct (IH E) as (rest & Hs & Hr).
    exists rest. split; [|done].
    unfold slice_to in *.
    replace (Z.to_nat (1 + LastIndex s sep)) with (S (Z.to_nat (LastIndex s sep)))
      by lia.
    simpl.
    change (String c s = String c (substring 0 (Z.to_nat (LastIndex s sep)) s
                                   +:+ String sep rest)).
    f_equal. exact Hs.
Qed.

Lemma LastIndex_absent (s : string) (sep : ascii) :
  (LastIndex s sep < 0)%Z ↔ sep ∉ list_ascii_of_string s.
Proof.
  induction s as [|c s IH]; simpl.
  - unfold LastIndex; simpl. rewrite elem_of_nil. split; [tauto | lia].
  - rewrite LastIndex_cons, not_elem_of_cons.
    destruct (LastIndex s sep <? 0)%Z eqn:E.
    + apply Z.ltb_lt in E. destruct (Ascii.eqb_spec c sep) as [->|Hc].
      * split; [lia | intros [? _]; done].
      * split; [intros _; split; [congruence | by apply IH] | lia].
    + apply Z.ltb_ge in E. split; [lia|]. intros [_ H]. apply IH in H. lia.
Qed.

Lemma length_substring_0 (n : nat) (s : string) :
  String.length (substring 0 n s) = Nat.min n (String.length s).
Proof.
  revert n. induction s as [|c s IH]; intros [|n]; simpl; try done.
  by rewrite IH.
Qed.

Lemma length_slice_to_LastIndex (s : string) (sep : ascii) :
  (0 ≤ LastIndex s sep)%Z →
  (String.length (slice_to s (LastIndex s sep)) < String.length s)%nat.
Proof.
  intros H. pose proof (LastIndex_bounds s sep).
  unfold slice_to. rewrite length_substring_0. lia.
Qed.

Lemma trim_with_drop width fuel (bs : list ascii) :
  ∃ k, trim_with width fuel bs = drop k bs.
Proof.
  revert bs. induction fuel as [|fuel IH]; intros bs; simpl.
  - by exists 0%nat.
  - destruct (width bs) as [|k]; [by exists 0%nat|].
    destruct (IH (drop (S k) bs)) as (j & ->). rewrite drop_drop. eauto.
Qed.

Lemma trim_with_done width fuel (bs : list ascii) :
  width [] = 0%nat → (length bs ≤ fuel)%nat →
  width (trim_with width fuel bs) = 0%nat.
Proof.
  intros Hnil. revert bs. induction fuel as [|fuel IH]; intros bs Hlen; simpl.
  - destruct bs; [done | simpl in Hlen; lia].
  - destruct (width bs) as [|k] eqn:E; [done|].
    apply IH. rewrite length_drop. lia.
Qed.

Lemma leading_space_take (n : nat) (bs : list ascii) :
  leading_space bs = 0%nat → leading_space (take n bs) = 0%nat.
Proof.
  unfold leading_space. rewrite !take_take.
  destruct (is_space_rune (take 1 bs)) eqn:E1; [done|].
  destruct (is_space_rune (take 2 bs)) eqn:E2; [done|].
  destruct (is_space_rune (take 3 bs)) eqn:E3; [done|].
  intros _.
  destruct n as [|[|[|n]]]; simpl Nat.min; rewrite ?E1, ?E2, ?E3; done.
Qed.

Lemma rev_drop (k : nat) (l : list ascii) :
  rev (drop k l) = take (length l - k) (rev l).
Proof.
  rewrite <- (take_drop k l) at 3. rewrite rev_app_distr.
  symmetry. apply take_app_length'. rewrite length_rev, length_drop. done.
Qed.

Lemma rev_drop_rev (k : nat) (bs : list ascii) :
  rev (drop k (rev bs)) = take (length bs - k) bs.
Proof. by rewrite rev_drop, rev_involutive, length_rev. Qed.

(** What [TrimSpace] returns neither starts nor ends with a white-space
    rune. *)
Lemma TrimSpace_trimmed (s : string) :
  leading_space (list_ascii_of_string (TrimSpace s)) = 0%nat
  ∧ trailing_space (rev (list_ascii_of_string (TrimSpace s))) = 0%nat.
Proof.
  unfold TrimSpace.
  set (bs := trim_with leading_space _ (list_ascii_of_string s)).
  rewrite list_ascii_of_string_of_list_ascii, rev_involutive.
  split.
  - destruct (trim_with_drop trailing_space (length bs) (rev bs)) as (k & ->).
    rewrite rev_drop_rev. apply leading_space_take.
    by apply trim_with_done.
  - apply trim_with_done; [done|]. by rewrite length_rev.
Qed.

Lemma Replace_absent (s : string) (old new : ascii) :
  old ≠ new → old ∉ list_ascii_of_string (Replace s old new).
Proof.
  intros Hne. induction s as [|c s IH]; simpl; [apply not_elem_of_nil|].
  apply not_elem_of_cons. split; [|done].
  destruct (Ascii.eqb_spec c old); congruence.
Qed.

End StringsFacts.

(** * Properties of [lookup] *)

Section LookupFacts.

Import Language.

Lemma length_normalize (s : string) :
  (String.length (normalize s) ≤ String.length s)%nat.
Proof.
  unfold normalize. rewrite length_Replace. apply length_TrimSpace.
Qed.

Lemma normalize_no_underscore (s : string) :
  "_"%char ∉ list_ascii_of_string (normalize s).
Proof. apply Replace_absent. discriminate. Qed.

Variable reg : gmap string Language.

(** The fuel of [lookup_fuel] never runs out: every recursive call is on
    a strictly shorter string, so any fuel from the length of the
    identifier on gives the same result. *)
Lemma lookup_fuel_enough (n m : nat) (languageID : string) :
  (String.length languageID ≤ n)%nat → (String.length languageID ≤ m)%nat →
  lookup_fuel n reg languageID = lookup_fuel m reg languageID.
Proof.
  revert m languageID. induction n as [|n IH]; intros m s Hn Hm.
  - destruct m; simpl; destruct (reg !! normalize s); try done;
      destruct (0 <=? _)%Z eqn:E; try done.
    apply Z.leb_le in E. apply length_slice_to_LastIndex in E.
    pose proof (length_normalize s). lia.
  - destruct m; simpl; destruct (reg !! normalize s); try done;
      destruct (0 <=? _)%Z eqn:E; try done;
      apply Z.leb_le in E; apply length_slice_to_LastIndex in E;
      pose proof (length_normalize s); [lia|].
    apply IH; lia.
Qed.

(** The equation of the source function, without fuel. *)
Lemma lookup_unfold (languageID : string) :
  lookup reg languageID
  = match reg !! normalize languageID with
    | Some found => Some found
    | None =>
        let end_ := Strings.LastIndex (normalize languageID) "-" in
        if (0 <=? end_)%Z
        then lookup reg (Strings.slice_to (normalize languageID) end_)
        else None
    end.
Proof.
  unfold lookup.
  destruct (String.length languageID) as [|n] eqn:Hlen; simpl;
    destruct (reg !! normalize languageID); try done;
    destruct (0 <=? _)%Z eqn:E; try done;
    apply Z.leb_le in E; apply length_slice_to_LastIndex in E;
    pose proof (length_normalize languageID); [lia|].
  apply lookup_fuel_enough; lia.
Qed.

Lemma lookup_fuel_candidates (n : nat) (languageID : string) :
  lookup_fuel n reg languageID
  = first_registered reg (candidates n languageID).
Proof.
  revert languageID. induction n as [|n IH]; intros s; simpl;
    destruct (reg !! normalize s); try done;
    destruct (0 <=? _)%Z; try done.
Qed.

(** The chain of candidates does not depend on the fuel either. *)
Lemma candidates_fuel_enough (n m : nat) (languageID : string) :
  (String.length languageID ≤ n)%nat → (String.length languageID ≤ m)%nat →
  candidates n languageID = candidates m languageID.
Proof.
  revert m languageID. induction n as [|n IH]; intros m s Hn Hm.
  - destruct m; simpl; f_equal; destruct (0 <=? _)%Z eqn:E; try done.
    apply Z.leb_le in E. apply length_slice_to_LastIndex in E.
    pose proof (length_normalize s). lia.
  - destruct m; simpl; f_equal; destruct (0 <=? _)%Z eqn:E; try done;
      apply Z.leb_le in E; apply length_slice_to_LastIndex in E;
      pose proof (length_normalize s); [lia|].
    apply IH; lia.
Qed.

Lemma first_registered_registered (ids : list string) (l : Language) :
  first_registered reg ids = Some l → ∃ i, i ∈ ids ∧ reg !! i = Some l.
Proof.
  induction ids as [|i ids IH]; simpl; [done|].
  destruct (reg !! i) eqn:E.
  - intros [= ->]. exists i. split; [left | done].
  - intros H. destruct (IH H) as (j & Hj & Hr). exists j. split; [by right | done].
Qed.

(** C4: lookup falls back by truncation.  [lookup] tries the identifier
    after trimming white space and turning underscores into dashes; when
    that is registered it is the result (an exact, case-sensitive match);
    otherwise, when the identifier still has a dash, the lookup is retried
    on the part before its last dash, and when it has none the result is
    absent ([nil]).  So the result is the first registered identifier in
    the chain of candidates; "pt-BR-nonstandard" gives the chain
    "pt-BR-nonstandard", "pt-BR", "pt". *)
Theorem lookup_falls_back_by_truncation (languageID : string) :
  lookup reg languageID
  = match reg !! normalize languageID with
    | Some found => Some found
    | None =>
        let end_ := Strings.LastIndex (normalize languageID) "-" in
        if (0 <=? end_)%Z
        then lookup reg (Strings.slice_to (normalize languageID) end_)
        else None
    end
  ∧ lookup reg languageID
    = first_registered reg (candidates (String.length languageID) languageID)
  ∧ candidates (String.length "pt-BR-nonstandard") "pt-BR-nonstandard"
    = ["pt-BR-nonstandard"; "pt-BR"; "pt"]
  ∧ ID <$> lookup languages "pt-BR-nonstandard" = Some "pt-BR"
  ∧ ID <$> lookup only_pt "pt-BR-nonstandard" = Some "pt"
  ∧ ID <$> lookup languages " pt_BR " = Some "pt-BR"
  ∧ ID <$> lookup languages "PT" = None
  ∧ ID <$> lookup languages "xx-yy-zz" = None.
Proof.
  split; [apply lookup_unfold|].
  split; [apply lookup_fuel_candidates|].
  repeat split; vm_compute; reflexivity.
Qed.

(** Without a dash and without a match the lookup fails. *)
Lemma lookup_no_dash (languageID : string) :
  reg !! normalize languageID = None →
  "-"%char ∉ list_ascii_of_string (normalize languageID) →
  lookup reg languageID = None.
Proof.
  intros Hmiss Hdash. rewrite lookup_unfold, Hmiss. simpl.
  apply LastIndex_absent in Hdash.
  destruct (0 <=? _)%Z eqn:E; [|done]. apply Z.leb_le in E. lia.
Qed.

(** What [lookup] returns is registered. *)
Lemma lookup_registered (languageID : string) (l : Language) :
  lookup reg languageID = Some l → ∃ i, reg !! i = Some l.
Proof.
  unfold lookup. rewrite lookup_fuel_candidates. intros H.
  apply first_registered_registered in H as (i & _ & Hi). by exists i.
Qed.

End LookupFacts.
(** * Properties of operand extraction *)

Section PluralFacts.

Import Plural.
Local Open Scope list_scope.

Lemma all_digits_digit_string (ds : list ascii) :
  all_digits ds = true ↔ digit_string ds.
Proof.
  unfold all_digits, digit_string. rewrite forallb_forall, Forall_forall.
  split; intros H c Hc; apply H; by apply list_elem_of_In.
Qed.

Lemma nonempty_true (ds : list ascii) : nonempty ds = true ↔ ds ≠ [].
Proof. destruct ds; simpl; split; congruence. Qed.

Lemma digit_not_special (c : ascii) :
  is_digit c = true →
  is_sign c = false ∧ is_point c = false ∧ is_exp_marker c = false.
Proof.
  destruct c as [[] [] [] [] [] [] [] []]; vm_compute;
    first [discriminate | intros _; repeat split].
Qed.

(** [split_at] finds nothing in a string without a byte satisfying [p]... *)
Lemma split_at_none (p : ascii → bool) (s : list ascii) :
  Forall (λ c, p c = false) s → split_at p s = (s, None).
Proof.
  induction 1 as [|c s Hc _ IH]; simpl; [done|]. by rewrite Hc, IH.
Qed.

(** ... and cuts at the first such byte. *)
Lemma split_at_first (p : ascii → bool) (before : list ascii) (c : ascii)
    (after : list ascii) :
  Forall (λ c, p c = false) before → p c = true →
  split_at p (before ++ c :: after) = (before, Some after).
Proof.
  intros Hb Hc. induction Hb as [|b before Hb _ IH]; simpl.
  - by rewrite Hc.
  - by rewrite Hb, IH.
Qed.

Lemma split_at_inv (p : ascii → bool) (s before : list ascii)
    (after : option (list ascii)) :
  split_at p s = (before, after) →
  Forall (λ c, p c = false) before
  ∧ match after with
    | None => s = before
    | Some rest => ∃ c, p c = true ∧ s = before ++ c :: rest
    end.
Proof.
  revert before after. induction s as [|c s IH]; intros before after; simpl.
  - intros [= <- <-]. done.
  - destruct (p c) eqn:Hc.
    + intros [= <- <-]. split; [done|]. by exists c.
    + destruct (split_at p s) as [b a] eqn:E. intros [= <- <-].
      destruct (IH b a eq_refl) as [Hb Ha]. split; [by constructor|].
      destruct a as [rest|]; [|by rewrite Ha].
      destruct Ha as (c' & Hc' & ->). by exists c'.
Qed.

Lemma strip_sign_inv (s : list ascii) :
  ∃ sg, sign_part sg ∧ s = sg ++ strip_sign s.
Proof.
  destruct s as [|c s]; simpl; [exists []; split; [by left | done]|].
  unfold is_sign.
  destruct (Ascii.eqb_spec c "-") as [->|]; simpl.
  { exists ["-"%char]. split; [right; by left | done]. }
  destruct (Ascii.eqb_spec c "+") as [->|]; simpl.
  { exists ["+"%char]. split; [right; by right | done]. }
  exists []. split; [by left | done].
Qed.

Lemma strip_sign_app (sg rest : list ascii) :
  sign_part sg →
  match rest with [] => True | c :: _ => is_sign c = false end →
  strip_sign (sg ++ rest) = rest.
Proof.
  intros [-> | [-> | ->]] H; simpl; try done.
  destruct rest as [|c rest]; [done|]. simpl. by rewrite H.
Qed.

Lemma parse_exponent_inv (e : list ascii) (k : Z) :
  parse_exponent e = Some k →
  ∃ esg eds, e = esg ++ eds ∧ sign_part esg ∧ digit_string eds ∧ eds ≠ [].
Proof.
  destruct e as [|c e]; simpl; [done|].
  destruct (Ascii.eqb_spec c "-") as [->|].
  { destruct (nonempty e && all_digits e) eqn:E; [|done]. intros _.
    apply andb_prop in E as [E1 E2].
    exists ["-"%char], e. repeat split; [right; by left | by apply all_digits_digit_string | by apply nonempty_true]. }
  destruct (Ascii.eqb_spec c "+") as [->|].
  { destruct (nonempty e && all_digits e) eqn:E; [|done]. intros _.
    apply andb_prop in E as [E1 E2].
    exists ["+"%char], e. repeat split; [right; by right | by apply all_digits_digit_string | by apply nonempty_true]. }
  destruct (is_digit c && all_digits e) eqn:E; [|done]. intros _.
  exists [], (c :: e). repeat split; [by left | by apply (all_digits_digit_string (c :: e)) | done].
Qed.

Lemma parse_exponent_complete (esg eds : list ascii) :
  sign_part esg → digit_string eds → eds ≠ [] →
  is_Some (parse_exponent (esg ++ eds)).
Proof.
  intros Hsg Hds Hne.
  assert (Hall : all_digits eds = true) by (by apply all_digits_digit_string).
  assert (Hn : nonempty eds = true) by (by apply nonempty_true).
  destruct Hsg as [-> | [-> | ->]]; simpl.
  - destruct eds as [|c eds]; [done|]. simpl.
    inversion Hds as [|? ? Hc _]; subst.
    destruct (digit_not_special c Hc) as (Hs & _ & _).
    unfold is_sign in Hs. apply orb_false_iff in Hs as [-> ->].
    simpl in Hall. rewrite Hall. eauto.
  - rewrite Hn, Hall. simpl. eauto.
  - rewrite Hn, Hall. simpl. eauto.
Qed.

(** The normalisation accepts exactly the well-formed numbers. *)
Lemma decimal_form_sound (s : list ascii) :
  is_Some (decimal_form s) → well_formed_number s.
Proof.
  unfold decimal_form. intros H.
  destruct (strip_sign_inv s) as (sg & Hsg & Hs).
  destruct (split_at is_exp_marker (strip_sign s)) as [mantissa ex] eqn:E1.
  destruct (split_at is_point mantissa) as [ip frac] eqn:E2.
  apply split_at_inv in E1 as [_ Hex]. apply split_at_inv in E2 as [_ Hfrac].
  destruct (all_digits ip && all_digits (default [] frac)
            && nonempty (ip ++ default [] frac)) eqn:E;
    [|by destruct H].
  apply andb_prop in E as [E Hne]. apply andb_prop in E as [Hip Hfp].
  apply all_digits_digit_string in Hip, Hfp. apply nonempty_true in Hne.
  assert (Hfr : ∃ fr, mantissa = ip ++ fr ∧ fraction_part fr (default [] frac)).
  { destruct frac as [fp|]; simpl in *.
    - destruct Hfrac as (c & Hc & ->). exists (c :: fp).
      apply Ascii.eqb_eq in Hc as ->. split; [done | by constructor].
    - exists []. rewrite app_nil_r. split; [done | constructor]. }
  destruct Hfr as (fr & -> & Hfr).
  assert (Hx : ∃ x, strip_sign s = (ip ++ fr) ++ x ∧ exponent_part x).
  { destruct ex as [e|].
    - destruct Hex as (c & Hc & ->).
      destruct (parse_exponent e) as [k|] eqn:Ek; [|by destruct H].
      apply parse_exponent_inv in Ek as (esg & eds & -> & ? & ? & ?).
      exists (c :: esg ++ eds). split; [done | by constructor].
    - exists []. rewrite app_nil_r. split; [done | constructor]. }
  destruct Hx as (x & Hx & Hxp).
  rewrite Hs, Hx, <- app_assoc. by econstructor.
Qed.

Lemma decimal_form_complete (s : list ascii) :
  well_formed_number s → is_Some (decimal_form s).
Proof.
  intros [sg ip frac fp ex Hsg Hip Hfrac Hne Hex].
  assert (Hipd : Forall (λ c, is_sign c = false ∧ is_point c = false
                              ∧ is_exp_marker c = false) ip).
  { eapply Forall_impl; [exact Hip|]. apply digit_not_special. }
  assert (Hfpd : digit_string fp) by (destruct Hfrac; [constructor | done]).
  assert (Hfpd' : Forall (λ c, is_sign c = false ∧ is_point c = false
                               ∧ is_exp_marker c = false) fp).
  { eapply Forall_impl; [exact Hfpd|]. apply digit_not_special. }
  unfold decimal_form.
  rewrite strip_sign_app; [|done|].
  2:{ destruct ip as [|c ip]; simpl.
      - destruct Hfrac; [done|]. done.
      - by inversion Hipd as [|? ? (? & _) _]. }
  assert (Hmant : Forall (λ c, is_exp_marker c = false) (ip ++ frac)).
  { apply Forall_app. split.
    - eapply Forall_impl; [exact Hipd|]. by intros c (_ & _ & ?).
    - destruct Hfrac; [constructor|]. constructor; [done|].
      eapply Forall_impl; [exact Hfpd'|]. by intros c (_ & _ & ?). }
  assert (Hsplit : split_at is_point (ip ++ frac)
                   = (ip, match frac with [] => None | _ :: _ => Some fp end)).
  { destruct Hfrac.
    - rewrite app_nil_r. apply split_at_none.
      eapply Forall_impl; [exact Hipd|]. by intros c (_ & ? & _).
    - apply split_at_first; [|done].
      eapply Forall_impl; [exact Hipd|]. by intros c (_ & ? & _). }
  assert (Hdef : default [] (match frac with [] => None | _ :: _ => Some fp end)
                 = fp) by (by destruct Hfrac).
  assert (Hchk : all_digits ip && all_digits fp && nonempty (ip ++ fp) = true).
  { rewrite !andb_true_iff. repeat split;
      [by apply all_digits_digit_string | by apply all_digits_digit_string
      | by apply nonempty_true]. }
  destruct Hex as [|marker esg eds Hm Hesg Heds Hnz].
  - rewrite app_nil_r, (split_at_none _ _ Hmant), Hsplit, Hdef, Hchk. eauto.
  - rewrite app_assoc, (split_at_first _ _ _ _ Hmant Hm), Hsplit, Hdef, Hchk.
    destruct (parse_exponent_complete esg eds Hesg Heds Hnz) as [k ->]. eauto.
Qed.

Lemma drop_zeros_spec (ds : list ascii) :
  ∃ k, ds = repeat "0"%char k ++ drop_zeros ds
       ∧ head (drop_zeros ds) ≠ Some "0"%char.
Proof.
  induction ds as [|c ds (k & Hk & Hh)]; simpl.
  - by exists 0%nat.
  - unfold is_zero_digit. destruct (Ascii.eqb_spec c "0") as [->|Hc].
    + exists (S k). simpl. split; [by f_equal | done].
    + exists 0%nat. simpl. split; [done | congruence].
Qed.

(** The fraction digits are the stripped digits followed by zeros only,
    and the stripped digits do not end in a zero. *)
Lemma strip_trailing_zeros_spec (fp : list ascii) :
  ∃ k, fp = strip_trailing_zeros fp ++ repeat "0"%char k
       ∧ last (strip_trailing_zeros fp) ≠ Some "0"%char.
Proof.
  unfold strip_trailing_zeros.
  destruct (drop_zeros_spec (rev fp)) as (k & Hk & Hh).
  exists k. split.
  - rewrite <- (rev_involutive fp) at 1. rewrite Hk at 1.
    by rewrite rev_app_distr, rev_repeat.
  - destruct (drop_zeros (rev fp)) as [|c ds]; [done|].
    simpl in *. by rewrite last_snoc.
Qed.

Lemma length_strip_trailing_zeros (fp : list ascii) :
  (length (strip_trailing_zeros fp) ≤ length fp)%nat.
Proof.
  destruct (strip_trailing_zeros_spec fp) as (k & Hk & _).
  rewrite Hk at 2. rewrite length_app. lia.
Qed.

(** The invariant of the operand set: [w ≤ v]. *)
Lemma operands_of_digits_W_le_V (ip fp : list ascii) :
  (0 ≤ W (operands_of_digits ip fp) ≤ V (operands_of_digits ip fp))%Z.
Proof. simpl. pose proof (length_strip_trailing_zeros fp). lia. Qed.

(** C6: operand extraction is trailing-zero sensitive.  "2.50" yields
    v=2, w=1, f=50, t=5; "2.5" yields v=1, w=1, f=5, t=5; "2" yields
    v=w=f=t=0, as does every integer and every decimal without fraction
    digits; v is the length of the fraction-digit string and w its length
    after stripping trailing zeros. *)
Theorem operands_trailing_zero_sensitive (z : Z) (ip fp : list ascii) :
  NewOperands (StringInput "2.50")
  = inl {| N := QArith_base.Qmake 5 2; I := 2;
           V := 2; W := 1; F := 50; T := 5 |}
  ∧ NewOperands (StringInput "2.5")
    = inl {| N := QArith_base.Qmake 5 2; I := 2;
             V := 1; W := 1; F := 5; T := 5 |}
  ∧ NewOperands (StringInput "2")
    = inl {| N := QArith_base.Qmake 2 1; I := 2;
             V := 0; W := 0; F := 0; T := 0 |}
  ∧ NewOperands (IntInput z)
    = inl {| N := QArith_base.Qmake (Z.abs z) 1; I := Z.abs z;
             V := 0; W := 0; F := 0; T := 0 |}
  ∧ (V (operands_of_digits ip []), W (operands_of_digits ip []),
     F (operands_of_digits ip []), T (operands_of_digits ip []))
    = (0, 0, 0, 0)%Z
  ∧ V (operands_of_digits ip fp) = Z.of_nat (length fp)
  ∧ W (operands_of_digits ip fp)
    = Z.of_nat (length (strip_trailing_zeros fp)).
Proof. repeat split. Qed.

(** C7: malformed numeric input is rejected.  For a string that is not a
    well-formed number, operand extraction fails with [InvalidNumber],
    and so does [PluralCategory] of any language, which returns
    [plural.Invalid] with that error instead of a category. *)
Theorem malformed_number_rejected (s : string) (l : Language.Language) :
  ¬ well_formed_number (list_ascii_of_string s) →
  NewOperands (StringInput s) = inr InvalidNumber
  ∧ Language.PluralCategory l (StringInput s) = (Invalid, Some InvalidNumber).
Proof.
  intros Hwf.
  assert (H : NewOperands (StringInput s) = inr InvalidNumber).
  { simpl. destruct (decimal_form (list_ascii_of_string s)) as [[ip fp]|] eqn:E;
      [|done].
    exfalso. apply Hwf, decimal_form_sound. by rewrite E. }
  split; [done|]. unfold Language.PluralCategory. by rewrite H.
Qed.

(** Conversely a well-formed number yields operands. *)
Lemma well_formed_number_accepted (s : string) :
  well_formed_number (list_ascii_of_string s) →
  ∃ ops, NewOperands (StringInput s) = inl ops.
Proof.
  intros H. apply decimal_form_complete in H as [[ip fp] E].
  simpl. rewrite E. eauto.
Qed.

(** The three malformed inputs the specification names. *)
Lemma malformed_examples :
  NewOperands (StringInput "12.3.4") = inr InvalidNumber
  ∧ NewOperands (StringInput "") = inr InvalidNumber
  ∧ NewOperands (StringInput "abc") = inr InvalidNumber.
Proof. repeat split. Qed.

Lemma parse_digits_nonneg_from (ds : list ascii) (acc : Z) :
  digit_string ds → (0 ≤ acc)%Z →
  (0 ≤ fold_left (λ acc c, 10 * acc + digit_value c) ds acc)%Z.
Proof.
  intros H. revert acc. induction H as [|c ds Hc _ IH]; intros acc Hacc;
    simpl; [done|].
  apply IH. unfold is_digit in Hc. apply andb_prop in Hc as [Hc _].
  apply Nat.leb_le in Hc. unfold digit_value. lia.
Qed.

(** A string of digits is read as the integer it writes. *)
Lemma digits_as_integer (s : string) :
  digit_string (list_ascii_of_string s) → s ≠ "" →
  NewOperands (StringInput s)
  = NewOperands (IntInput (parse_digits (list_ascii_of_string s))).
Proof.
  intros Hd Hne. simpl. unfold decimal_form.
  set (ds := list_ascii_of_string s) in *.
  assert (Hsp : Forall (λ c, is_sign c = false ∧ is_point c = false
                             ∧ is_exp_marker c = false) ds).
  { eapply Forall_impl; [exact Hd|]. apply digit_not_special. }
  assert (Hds : ds ≠ []) by (destruct s; [done | discriminate]).
  rewrite <- (app_nil_l ds) at 1.
  rewrite strip_sign_app; [|by left|].
  2:{ destruct ds as [|c ds]; [done|]. by inversion Hsp as [|? ? (? & _) _]. }
  rewrite split_at_none
    by (eapply Forall_impl; [exact Hsp|]; by intros c (_ & _ & ?)).
  rewrite split_at_none
    by (eapply Forall_impl; [exact Hsp|]; by intros c (_ & ? & _)).
  simpl. rewrite app_nil_r.
  replace (all_digits ds) with true
    by (symmetry; by apply all_digits_digit_string).
  replace (nonempty ds) with true by (symmetry; by apply nonempty_true).
  simpl. unfold operands_of_digits. simpl.
  pose proof (parse_digits_nonneg_from ds 0 Hd ltac:(lia)) as Hpos.
  fold (parse_digits ds) in Hpos.
  rewrite Z.abs_eq by done.
  do 2 f_equal. rewrite Z.mul_1_r, Z.add_0_r.
  apply Qcanon.Qred_identity. simpl. apply Z.gcd_1_r.
Qed.

(** C8: operand derivation is representation-stable.  The integer 1 and
    the decimal string "1" yield the same operand set, i=1 and
    v=w=f=t=0. *)
Theorem operands_representation_stable :
  NewOperands (IntInput 1) = NewOperands (StringInput "1")
  ∧ NewOperands (IntInput 1)
    = inl {| N := QArith_base.Qmake 1 1; I := 1;
             V := 0; W := 0; F := 0; T := 0 |}.
Proof. split; reflexivity. Qed.

End PluralFacts.


(** * Properties of the plural functions *)

Section LanguageFacts.

Import Language.

Lemma elem_of_newSet (cats : list Plural.Category) (c : Plural.Category) :
  c ∈ newSet cats ↔ c ∈ cats.
Proof.
  unfold newSet.
  assert (G : ∀ acc : gset Plural.Category,
             c ∈ foldl (λ set pc, {[pc]} ∪ set) acc cats ↔ c ∈ cats ∨ c ∈ acc).
  { induction cats as [|x cats IH]; intros acc; simpl.
    - rewrite elem_of_nil. tauto.
    - rewrite IH, elem_of_cons, elem_of_union, elem_of_singleton. tauto. }
  rewrite G. rewrite elem_of_empty. tauto.
Qed.

Ltac category_cases :=
  repeat match goal with
  | |- context [if ?b then _ else _] => destruct b
  end.

Ltac settle_category :=
  first [ right; reflexivity
        | left; apply elem_of_newSet; simpl;
          repeat first [ apply list_elem_of_here | apply list_elem_of_further ] ].

Lemma builtin_respects_declared (id : string) (l : Language) :
  languages !! id = Some l → respects_declared l.
Proof.
  intros H. apply elem_of_list_to_map_2 in H.
  repeat (apply elem_of_cons in H; destruct H as [H|H];
          [injection H as -> ->; intros ops; unfold declared_or_other; simpl;
           cbv [ar_PluralFunc one_integer_PluralFunc other_PluralFunc
                cs_PluralFunc da_PluralFunc fr_PluralFunc lt_PluralFunc
                pt_BR_PluralFunc es_PluralFunc];
           category_cases; settle_category |]).
  by apply elem_of_nil in H.
Qed.

(** [Register] is last-write-wins on the identifier of the definition. *)
Lemma lookup_Register (l : Language) (reg : gmap string Language) (i : string) :
  Register l reg !! i = if decide (ID l = i) then Some l else reg !! i.
Proof. unfold Register. apply lookup_insert. Qed.

Lemma registry_respects_declared (reg : gmap string Language) :
  registry reg → ∀ id l, reg !! id = Some l → respects_declared l.
Proof.
  induction 1 as [|reg l' Hreg IH Hl']; intros id l.
  - apply builtin_respects_declared.
  - rewrite lookup_Register. destruct (decide (ID l' = id)).
    + by intros [= <-].
    + apply IH.
Qed.

(** The Arabic function at the boundaries of its ranges, for integers
    ([w = 0]) and for a decimal with fraction digits. *)
Lemma ar_PluralFunc_boundaries :
  let int (i : Z) :=
    {| Plural.N := QArith_base.Qmake i 1; Plural.I := i; Plural.V := 0;
       Plural.W := 0; Plural.F := 0; Plural.T := 0 |} in
  map (λ i, ar_PluralFunc (int i)) [0; 1; 2; 3; 10; 11; 99; 100; 102; 103; 111]%Z
  = [Plural.Zero; Plural.One; Plural.Two; Plural.Few; Plural.Few;
     Plural.Many; Plural.Many; Plural.Other; Plural.Other; Plural.Few;
     Plural.Many]
  ∧ ar_PluralFunc
      {| Plural.N := QArith_base.Qmake 3 2; Plural.I := 1; Plural.V := 1;
         Plural.W := 1; Plural.F := 5; Plural.T := 5 |}
    = Plural.Other.
Proof. split; reflexivity. Qed.

(** C5, as the code has it: rule evaluation is total and closed over the
    declared categories for every language of the built-in table, and
    for a language added by [Register] when its own plural function
    stays within its declared categories ([Register] checks nothing).
    For these and every operand set, the plural function returns a
    category that is declared by the language or is [Other]; and
    [PluralCategory] returns either such a category without an error, or
    [plural.Invalid] with the error of the operand extraction. *)
Theorem plural_rules_closed_over_declared
    (reg : gmap string Language) (id : string) (l : Language)
    (ops : Plural.Operands) (number : Plural.NumericInput) :
  registry reg → reg !! id = Some l →
  declared_or_other l (PluralFunc l ops)
  ∧ (let '(c, err) := PluralCategory l number in
     match err with
     | None => declared_or_other l c
     | Some _ => c = Plural.Invalid
     end).
Proof.
  intros Hreg Hl.
  pose proof (registry_respects_declared reg Hreg id l Hl) as H.
  split; [apply H|]. unfold PluralCategory.
  destruct (Plural.NewOperands number) as [ops'|err]; [apply H | done].
Qed.

(** The same through [lookup]: a language found for an identifier
    classifies within its declared categories. *)
Lemma lookup_respects_declared
    (reg : gmap string Language) (languageID : string) (l : Language) :
  registry reg → lookup reg languageID = Some l → respects_declared l.
Proof.
  intros Hreg H. apply lookup_registered in H as (i & Hi).
  by apply (registry_respects_declared reg Hreg i).
Qed.

(** [Register] inserts or replaces the definition under its identifier:
    afterwards the registry holds [l] at [ID l] and is unchanged at every
    other identifier. *)
Theorem Register_inserts_or_replaces
    (l : Language) (reg : gmap string Language) (i : string) :
  Register l reg !! ID l = Some l
  ∧ Register l reg !! i = (if decide (ID l = i) then Some l else reg !! i).
Proof.
  split; [|apply lookup_Register].
  rewrite lookup_Register. by rewrite decide_True.
Qed.

(** The built-in functions never return [plural.Invalid]. *)
Lemma builtin_never_Invalid (id : string) (l : Language) (ops : Plural.Operands) :
  languages !! id = Some l → PluralFunc l ops ≠ Plural.Invalid.
Proof.
  intros H E. pose proof (builtin_respects_declared id l H ops) as Hd.
  rewrite E in Hd. destruct Hd as [Hd|]; [|done].
  apply elem_of_list_to_map_2 in H.
  repeat (apply elem_of_cons in H; destruct H as [H|H];
          [injection H as -> ->; apply elem_of_newSet in Hd; simpl in Hd;
           repeat (apply elem_of_cons in Hd; destruct Hd as [Hd|Hd];
                   [discriminate Hd|]);
           by apply elem_of_nil in Hd |]).
  by apply elem_of_nil in H.
Qed.

End LanguageFacts.

(** English, the integer 1 and the decimal "2.50". *)
Lemma plural_rules_closed_over_declared_witness :
  Language.languages !! "en" = Some Language.en
  ∧ Language.declared_or_other Language.en
      (Language.PluralFunc Language.en
         {| Plural.N := QArith_base.Qmake 1 1; Plural.I := 1; Plural.V := 0;
            Plural.W := 0; Plural.F := 0; Plural.T := 0 |})
  ∧ (let '(c, err) :=
       Language.PluralCategory Language.en (Plural.StringInput "2.50") in
     match err with
     | None => Language.declared_or_other Language.en c
     | Some _ => c = Plural.Invalid
     end).
Proof.
  assert (Hen : Language.languages !! "en" = Some Language.en)
    by (vm_compute; reflexivity).
  split; [exact Hen|].
  exact (plural_rules_closed_over_declared Language.languages "en"
           Language.en
           {| Plural.N := QArith_base.Qmake 1 1; Plural.I := 1;
              Plural.V := 0; Plural.W := 0; Plural.F := 0; Plural.T := 0 |}
           (Plural.StringInput "2.50") Language.registry_builtin Hen).
Defined.

Lemma malformed_number_rejected_witness :
  ¬ Plural.well_formed_number (list_ascii_of_string "12.3.4")
  ∧ Plural.NewOperands (Plural.StringInput "12.3.4")
    = inr Plural.InvalidNumber
  ∧ Language.PluralCategory Language.en (Plural.StringInput "12.3.4")
    = (Plural.Invalid, Some Plural.InvalidNumber).
Proof.
  assert (H : ¬ Plural.well_formed_number (list_ascii_of_string "12.3.4")).
  { intros Hwf. apply decimal_form_complete in Hwf as [r Hr].
    vm_compute in Hr. discriminate Hr. }
  split; [exact H|].
  apply (malformed_number_rejected "12.3.4" Language.en H).
Defined.


(** * Properties of [Parse] *)

Section ParseFacts.
Import Language.

Local Arguments String.append : simpl nomatch.

Lemma string_app_nil_r (s : string) : s ++ "" = s.
Proof. induction s; simpl; congruence. Qed.

Lemma string_app_assoc (a b c : string) : (a ++ b) ++ c = a ++ b ++ c.
Proof. induction a; simpl; congruence. Qed.

Lemma string_length_app (a b : string) :
  String.length (a ++ b) = (String.length a + String.length b)%nat.
Proof. induction a; simpl; congruence. Qed.

Lemma substring_app_l (n m : nat) (p x : string) :
  (n + m ≤ String.length p)%nat →
  substring n m (p ++ x) = substring n m p.
Proof.
  revert n m. induction p as [|c p IH]; intros n m H; simpl in *.
  - assert (n = 0 ∧ m = 0)%nat as [-> ->] by lia. by destruct x.
  - destruct n as [|n].
    + destruct m as [|m]; [done|]. f_equal. apply IH. lia.
    + apply IH. lia.
Qed.

Lemma substring_middle (pre name post : string) :
  substring (String.length pre) (String.length name) (pre ++ name ++ post)
  = name.
Proof.
  induction pre as [|c pre IH]; simpl; [|done].
  induction name as [|c name IH]; simpl; [by destruct post|]. by f_equal.
Qed.

Lemma slice_middle (pre name post : string) :
  Strings.slice (pre ++ name ++ post) (Z.of_nat (String.length pre))
    (Z.of_nat (String.length pre) + Z.of_nat (String.length name))
  = name.
Proof.
  unfold Strings.slice.
  replace (Z.to_nat (Z.of_nat (String.length pre))) with (String.length pre)
    by lia.
  replace (Z.to_nat _) with (String.length name) by lia.
  apply substring_middle.
Qed.

Lemma free_of_cons (p : ascii → bool) (c : ascii) (s : string) :
  free_of p (String c s) ↔ p c = false ∧ free_of p s.
Proof. unfold free_of. simpl. apply (Forall_cons (λ c, p c = false)). Qed.

Lemma free_of_app (p : ascii → bool) (a b : string) :
  free_of p (a ++ b) ↔ free_of p a ∧ free_of p b.
Proof.
  induction a as [|c a IH]; simpl.
  - unfold free_of at 2. simpl. split; [by split; [constructor|] | tauto].
  - rewrite !free_of_cons, IH. tauto.
Qed.

Lemma free_of_delimiter (s : string) :
  free_of is_delimiter s ↔ free_of is_terminator s ∧ free_of is_separator s.
Proof.
  unfold free_of, is_delimiter. rewrite <- Forall_and.
  apply Forall_iff. intros c. apply orb_false_iff.
Qed.

Variable reg : gmap string Language.

(** Bytes that are not delimiters only advance [end]. *)
Lemma Parse_from_skip (lang mid rest : string) (start e : Z) :
  free_of is_delimiter mid →
  Parse_from reg lang (mid ++ rest) start e
  = Parse_from reg lang rest start (e + Z.of_nat (String.length mid)).
Proof.
  revert e. induction mid as [|c mid IH]; intros e H; simpl.
  - f_equal. lia.
  - apply free_of_cons in H as [Hc H]. unfold is_delimiter in Hc.
    apply orb_false_iff in Hc as [-> ->]. rewrite IH by done. f_equal. lia.
Qed.

(** Without a terminator no candidate is looked up inside the loop; only
    [start] may move, and it never moves back to 0. *)
Lemma Parse_from_no_terminator (mid : string) (start e : Z) :
  free_of is_terminator mid → (0 ≤ start)%Z → (0 ≤ e)%Z →
  ∃ start', (start ≤ start' ∨ 0 < start')%Z ∧ (0 ≤ start')%Z ∧
    ∀ lang rest,
      Parse_from reg lang (mid ++ rest) start e
      = Parse_from reg lang rest start' (e + Z.of_nat (String.length mid)).
Proof.
  revert start e. induction mid as [|c mid IH]; intros start e H Hs He.
  - exists start. split; [lia|]. split; [done|]. intros. simpl. f_equal. lia.
  - apply free_of_cons in H as [Hc H]. simpl. 
    destruct (is_separator c) eqn:Hsep.
    + destruct (IH (e + 1)%Z (e + 1)%Z H ltac:(lia) ltac:(lia))
        as (s' & Hs' & Hs0 & Heq).
      exists s'. split; [lia|]. split; [done|]. intros lang rest.
      rewrite Hc, Heq. f_equal. lia.
    + destruct (IH start (e + 1)%Z H Hs ltac:(lia)) as (s' & Hs' & Hs0 & Heq).
      exists s'. split; [lia|]. split; [done|]. intros lang rest.
      rewrite Hc, Heq. f_equal. lia.
Qed.

Lemma Parse_from_started (lang rest : string) (start e : Z) :
  free_of is_terminator rest → (0 < start)%Z → (0 ≤ e)%Z →
  Parse_from reg lang rest start e = None.
Proof.
  intros H Hs He.
  destruct (Parse_from_no_terminator rest start e H ltac:(lia) He)
    as (s' & Hs' & _ & Heq).
  rewrite <- (string_app_nil_r rest), Heq. simpl.
  destruct (0 <? s')%Z eqn:E; [done|]. apply Z.ltb_ge in E. lia.
Qed.

(** An identifier without any of the five delimiter bytes is looked up
    as a whole. *)
Theorem Parse_no_delimiter (lang : string) :
  free_of is_delimiter lang → Parse reg lang = lookup reg lang.
Proof.
  intros H. unfold Parse.
  rewrite <- (string_app_nil_r lang) at 2.
  by rewrite Parse_from_skip.
Qed.

(** The first candidate wins.  When the input starts with a candidate
    [name] (directly, or after a path prefix that ends in a slash or
    backslash and holds no terminator), [name] is followed by a comma,
    semicolon or point, and [lookup] resolves [name], that language is
    the result, whatever follows. *)
Theorem Parse_first_candidate
    (pre name rest : string) (t : ascii) (l : Language) :
  free_of is_terminator pre →
  pre = "" ∨ (∃ dir sep, pre = dir ++ String sep "" ∧ is_separator sep = true) →
  free_of is_delimiter name →
  is_terminator t = true →
  lookup reg name = Some l →
  Parse reg (pre ++ name ++ String t rest) = Some l.
Proof.
  intros Hpre Hend Hname Ht Hl. unfold Parse.
  set (lang := pre ++ name ++ String t rest).
  assert (Hscan : Parse_from reg lang (pre ++ name ++ String t rest) 0 0
                  = Parse_from reg lang (name ++ String t rest)
                      (Z.of_nat (String.length pre))
                      (Z.of_nat (String.length pre))).
  { destruct Hend as [-> | (dir & sep & -> & Hsep)]; [done|].
    apply free_of_app in Hpre as [Hdir Hsepf].
    apply free_of_cons in Hsepf as [Hsept _].
    destruct (Parse_from_no_terminator dir 0 0 Hdir ltac:(lia) ltac:(lia))
      as (s' & _ & _ & Heq).
    rewrite string_app_assoc, Heq. simpl. rewrite Hsept, Hsep.
    rewrite string_length_app. simpl. f_equal; lia. }
  unfold lang at 2. rewrite Hscan, Parse_from_skip by done. simpl.
  rewrite Ht. unfold lang. rewrite slice_middle. by rewrite Hl.
Qed.

Lemma Parse_from_tail_ignored
    (done mid rest : string) (d : ascii) (start : Z) :
  is_delimiter d = true → free_of is_terminator rest →
  (0 ≤ start ≤ Z.of_nat (String.length done))%Z →
  Parse_from reg (done ++ mid ++ String d rest) (mid ++ String d rest)
    start (Z.of_nat (String.length done))
  = Parse_from reg (done ++ mid ++ String d "") (mid ++ String d "")
      start (Z.of_nat (String.length done)).
Proof.
  intros Hd Hrest. revert done start.
  assert (Hslice : ∀ done x y start,
            (0 ≤ start ≤ Z.of_nat (String.length done))%Z →
            Strings.slice (done ++ x) start (Z.of_nat (String.length done))
            = Strings.slice (done ++ y) start (Z.of_nat (String.length done))).
  { intros done x y start Hs. unfold Strings.slice.
    rewrite !substring_app_l by lia. done. }
  induction mid as [|c mid IH]; intros done start Hs.
  - cbn [String.app Parse_from].
    assert (Htail : ∀ s, (0 ≤ s)%Z → 
              Parse_from reg (done ++ String d rest) rest (s + 1) (s + 1)
              = Parse_from reg (done ++ String d "") "" (s + 1) (s + 1)).
    { intros s Hs0. rewrite Parse_from_started by (done || lia). simpl.
      destruct (0 <? s + 1)%Z eqn:E; [done|]. apply Z.ltb_ge in E. lia. }
    rewrite (Hslice done (String d rest) (String d "") start Hs).
    unfold is_delimiter in Hd. destruct (is_terminator d); simpl in Hd.
    + destruct (lookup reg _); [done|]. apply Htail. lia.
    + rewrite Hd. apply Htail. lia.
  - cbn [String.app Parse_from].
    rewrite (Hslice done (String c (mid ++ String d rest))
               (String c (mid ++ String d "")) start Hs).
    assert (Hnext : ∀ s, (0 ≤ s ≤ Z.of_nat (String.length done) + 1)%Z →
              Parse_from reg (done ++ String c (mid ++ String d rest))
                (mid ++ String d rest) s (Z.of_nat (String.length done) + 1)
              = Parse_from reg (done ++ String c (mid ++ String d ""))
                  (mid ++ String d "") s (Z.of_nat (String.length done) + 1)).
    { intros s Hs'.
      specialize (IH (done ++ String c "") s).
      rewrite !string_app_assoc, string_length_app in IH. simpl in IH.
      replace (Z.of_nat (String.length done + 1))
        with (Z.of_nat (String.length done) + 1)%Z in IH by lia.
      apply IH. lia. }
    destruct (is_terminator c).
    + destruct (lookup reg _); [done|]. apply Hnext. lia.
    + destruct (is_separator c); apply Hnext; lia.
Qed.

(** Once the input holds a delimiter, what follows the last comma,
    semicolon or point is never looked up: the input parses like the
    input cut after that delimiter. *)
Theorem Parse_tail_ignored (pre rest : string) (d : ascii) :
  is_delimiter d = true → free_of is_terminator rest →
  Parse reg (pre ++ String d rest) = Parse reg (pre ++ String d "").
Proof.
  intros Hd Hrest. unfold Parse.
  pose proof (Parse_from_tail_ignored "" pre rest d 0 Hd Hrest) as H.
  simpl in H. apply H. lia.
Qed.

Lemma Parse_from_registered (lang rest : string) (start e : Z) (l : Language) :
  Parse_from reg lang rest start e = Some l → ∃ i, reg !! i = Some l.
Proof.
  revert start e. induction rest as [|c rest IH]; intros start e; simpl.
  - destruct (0 <? start)%Z; [done|]. apply lookup_registered.
  - destruct (is_terminator c).
    + destruct (lookup reg _) as [found|] eqn:E.
      * intros [= <-]. by apply lookup_registered in E.
      * apply IH.
    + destruct (is_separator c); apply IH.
Qed.

(** [Parse] only returns languages of the registry. *)
Theorem Parse_returns_registered (lang : string) (l : Language) :
  Parse reg lang = Some l → ∃ i, reg !! i = Some l.
Proof. apply Parse_from_registered. Qed.

End ParseFacts.

(** * Normal forms and the ancestors [lookup] returns *)

Section NormalForm.
Import Strings Language.

Tactic Notation "peel" ident(n) integer(k) tactic3(tac) :=
  do k (destruct n as [|n]; [tac|]); tac.

Lemma is_space_rune_dash_1 : is_space_rune ["-"%char] = false.
Proof. reflexivity. Qed.

Lemma is_space_rune_dash_2 (c : ascii) (bs : list ascii) :
  is_space_rune ("-"%char :: c :: bs) = false.
Proof.
  unfold is_space_rune. cbn [map]. change (nat_of_ascii "-") with 45%nat.
  generalize (nat_of_ascii c) as n. generalize (map nat_of_ascii bs) as l.
  intros l n. by destruct l as [|? [|? ?]].
Qed.

Lemma is_space_rune_dash_3 (c : ascii) :
  is_space_rune [c; "-"%char] = false.
Proof.
  unfold is_space_rune. cbn [map]. change (nat_of_ascii "-") with 45%nat.
  generalize (nat_of_ascii c) as n. intros n.
  peel n 228 (reflexivity).
Qed.

Lemma is_space_rune_dash_4 (c1 c3 : ascii) :
  is_space_rune [c1; "-"%char; c3] = false.
Proof.
  unfold is_space_rune. cbn [map]. change (nat_of_ascii "-") with 45%nat.
  generalize (nat_of_ascii c1) as n. generalize (nat_of_ascii c3) as m.
  intros m n. peel n 228 (reflexivity).
Qed.

Lemma is_space_rune_dash_5 (c1 c2 : ascii) :
  is_space_rune [c1; c2; "-"%char] = false.
Proof.
  unfold is_space_rune. cbn [map]. change (nat_of_ascii "-") with 45%nat.
  generalize (nat_of_ascii c1) as n. generalize (nat_of_ascii c2) as m.
  intros m n.
  peel n 228 (first [reflexivity | peel m 228 (reflexivity)]).
Qed.

Lemma is_space_rune_long (c1 c2 c3 c4 : ascii) (bs : list ascii) :
  is_space_rune (c1 :: c2 :: c3 :: c4 :: bs) = false.
Proof.
  unfold is_space_rune. cbn [map].
  generalize (nat_of_ascii c1) as n. generalize (nat_of_ascii c2) as m.
  generalize (nat_of_ascii c3) as k.
  intros k m n.
  peel n 228 (first [reflexivity
                    | peel m 228 (first [reflexivity
                                        | peel k 228 (reflexivity)])]).
Qed.

Lemma is_space_rune_no_dash (bs : list ascii) :
  is_space_rune bs = true → "-"%char ∉ bs.
Proof.
  intros H Hin.
  destruct bs as [|c1 [|c2 [|c3 [|c4 bs]]]].
  - by apply elem_of_nil in Hin.
  - apply list_elem_of_singleton in Hin as <-. by rewrite is_space_rune_dash_1 in H.
  - apply elem_of_cons in Hin as [<- | Hin].
    + by rewrite is_space_rune_dash_2 in H.
    + apply list_elem_of_singleton in Hin as <-.
      by rewrite is_space_rune_dash_3 in H.
  - apply elem_of_cons in Hin as [<- | Hin].
    { by rewrite is_space_rune_dash_2 in H. }
    apply elem_of_cons in Hin as [<- | Hin].
    { by rewrite is_space_rune_dash_4 in H. }
    apply list_elem_of_singleton in Hin as <-.
    by rewrite is_space_rune_dash_5 in H.
  - by rewrite is_space_rune_long in H.
Qed.

Lemma Replace_bytes (s : string) :
  list_ascii_of_string (Replace s "_" "-")
  = map to_dash (list_ascii_of_string s).
Proof. induction s as [|c s IH]; simpl; [done|]. by rewrite IH. Qed.

Lemma map_to_dash_id (bs : list ascii) :
  "_"%char ∉ bs → map to_dash bs = bs.
Proof.
  induction bs as [|c bs IH]; simpl; [done|].
  intros H. apply not_elem_of_cons in H as [Hc H]. rewrite IH by done.
  unfold to_dash. destruct (Ascii.eqb_spec c "_"); [congruence | done].
Qed.

Lemma is_space_rune_to_dash (bs : list ascii) :
  is_space_rune (map to_dash bs) = true → is_space_rune bs = true.
Proof.
  intros H. pose proof (is_space_rune_no_dash _ H) as Hd.
  rewrite map_to_dash_id in H; [done|].
  intros Hin. apply Hd.
  apply list_elem_of_In, in_map_iff. exists "_"%char.
  split; [done | by apply list_elem_of_In].
Qed.

Lemma leading_space_to_dash (bs : list ascii) :
  leading_space bs = 0%nat → leading_space (map to_dash bs) = 0%nat.
Proof.
  unfold leading_space. rewrite !firstn_map.
  destruct (is_space_rune (take 1 bs)) eqn:E1; [done|].
  destruct (is_space_rune (take 2 bs)) eqn:E2; [done|].
  destruct (is_space_rune (take 3 bs)) eqn:E3; [done|].
  intros _.
  destruct (is_space_rune (map to_dash (take 1 bs))) eqn:F1;
    [apply is_space_rune_to_dash in F1; congruence|].
  destruct (is_space_rune (map to_dash (take 2 bs))) eqn:F2;
    [apply is_space_rune_to_dash in F2; congruence|].
  destruct (is_space_rune (map to_dash (take 3 bs))) eqn:F3;
    [apply is_space_rune_to_dash in F3; congruence|].
  done.
Qed.

Lemma normalize_trimmed_left (x : string) : trimmed_left (normalize x).
Proof.
  split; [|apply normalize_no_underscore].
  unfold normalize. rewrite Replace_bytes.
  apply leading_space_to_dash, TrimSpace_trimmed.
Qed.

Lemma bytes_substring_0 (n : nat) (s : string) :
  list_ascii_of_string (substring 0 n s) = take n (list_ascii_of_string s).
Proof.
  revert n. induction s as [|c s IH]; intros [|n]; simpl; try done.
  by rewrite IH.
Qed.

Lemma substring_0_bytes (n : nat) (s : string) :
  string_of_list_ascii (take n (list_ascii_of_string s)) = substring 0 n s.
Proof.
  by rewrite <- bytes_substring_0, string_of_list_ascii_of_string.
Qed.

Lemma substring_0_substring_0 (m n : nat) (s : string) :
  substring 0 m (substring 0 n s) = substring 0 (m `min` n) s.
Proof.
  rewrite <- (string_of_list_ascii_of_string (substring 0 m _)).
  rewrite <- (string_of_list_ascii_of_string (substring 0 (m `min` n) s)).
  f_equal. rewrite !bytes_substring_0. apply take_take.
Qed.

Lemma trim_with_fixed width fuel (bs : list ascii) :
  width bs = 0%nat → trim_with width fuel bs = bs.
Proof. intros H. destruct fuel; simpl; [done|]. by rewrite H. Qed.

Lemma TrimSpace_prefix (c : string) :
  leading_space (list_ascii_of_string c) = 0%nat →
  ∃ m, TrimSpace c = substring 0 m c.
Proof.
  intros H. unfold TrimSpace. rewrite (trim_with_fixed _ _ _ H).
  destruct (trim_with_drop trailing_space
              (length (list_ascii_of_string c))
              (rev (list_ascii_of_string c))) as (k & ->).
  rewrite rev_drop_rev. eexists. apply substring_0_bytes.
Qed.

Lemma Replace_id (s : string) :
  "_"%char ∉ list_ascii_of_string s → Replace s "_" "-" = s.
Proof.
  intros H. rewrite <- (string_of_list_ascii_of_string (Replace s "_" "-")).
  rewrite Replace_bytes, map_to_dash_id by done.
  apply string_of_list_ascii_of_string.
Qed.

Lemma trimmed_left_substring_0 (n : nat) (c : string) :
  trimmed_left c → trimmed_left (substring 0 n c).
Proof.
  intros [Hl Hu]. unfold trimmed_left. rewrite bytes_substring_0. split.
  - by apply leading_space_take.
  - intros Hin. apply Hu.
    rewrite <- (take_drop n (list_ascii_of_string c)).
    apply elem_of_app. by left.
Qed.

(** Normalising a prefix of a normal form gives a prefix again. *)
Lemma normalize_substring_0 (n : nat) (c : string) :
  trimmed_left c → ∃ m, normalize (substring 0 n c) = substring 0 m c.
Proof.
  intros Hc. pose proof (trimmed_left_substring_0 n c Hc) as [Hl Hu].
  destruct (TrimSpace_prefix _ Hl) as (m & Hm).
  exists (m `min` n)%nat. unfold normalize.
  rewrite Hm, substring_0_substring_0. apply Replace_id.
  by apply trimmed_left_substring_0.
Qed.

Variable reg : gmap string Language.

Lemma lookup_fuel_ancestor (fuel n : nat) (c : string) (l : Language) :
  trimmed_left c →
  lookup_fuel fuel reg (substring 0 n c) = Some l →
  ∃ m, reg !! substring 0 m c = Some l.
Proof.
  intros Hc. revert n. induction fuel as [|fuel IH]; intros n; simpl;
    destruct (normalize_substring_0 n c Hc) as (m & ->);
    destruct (reg !! substring 0 m c) eqn:E.
  - intros [= <-]. eauto.
  - by destruct (0 <=? _)%Z.
  - intros [= <-]. eauto.
  - destruct (0 <=? _)%Z; [|done]. unfold slice_to.
    rewrite substring_0_substring_0. apply IH.
Qed.

(** [lookup] only returns a language registered under a prefix of the
    normalised identifier. *)
Theorem lookup_returns_ancestor (languageID : string) (l : Language) :
  lookup reg languageID = Some l →
  ∃ m, reg !! substring 0 m (normalize languageID) = Some l.
Proof.
  rewrite lookup_unfold.
  destruct (reg !! normalize languageID) eqn:E.
  - intros [= <-]. exists (String.length (normalize languageID)).
    rewrite <- E. f_equal.
    rewrite <- substring_0_bytes, take_ge
      by (by rewrite length_list_ascii_of_string).
    apply string_of_list_ascii_of_string.
  - simpl. destruct (0 <=? _)%Z; [|done]. unfold lookup, slice_to.
    apply lookup_fuel_ancestor, normalize_trimmed_left.
Qed.

(** Identifiers with the same normal form resolve alike. *)
Theorem lookup_normal_form (s1 s2 : string) :
  normalize s1 = normalize s2 → lookup reg s1 = lookup reg s2.
Proof. intros H. rewrite !lookup_unfold. by rewrite H. Qed.

(** A definition whose identifier is in normal form is found under that
    identifier once registered. *)
Theorem Register_then_lookup (l : Language) :
  normalize (ID l) = ID l → lookup (Register l reg) (ID l) = Some l.
Proof.
  intros H. rewrite lookup_unfold, H.
  unfold Register. by rewrite lookup_insert_eq.
Qed.

End NormalForm.

(** * The registry and the built-in table *)

Section RegistryFacts.
Import Language.

Lemma builtin_key_is_ID (i : string) (l : Language) :
  languages !! i = Some l → ID l = i.
Proof.
  intros H. apply elem_of_list_to_map_2 in H.
  repeat (apply elem_of_cons in H; destruct H as [H|H];
          [by injection H as -> ->|]).
  by apply elem_of_nil in H.
Qed.

(** Every registry built from the table by [Register] holds each
    language under its own identifier, the string [String()] returns. *)
Theorem registry_key_is_ID (reg : gmap string Language) (i : string)
    (l : Language) :
  reachable reg → reg !! i = Some l → Language_String l = i.
Proof.
  intros Hreg. revert i l. induction Hreg as [|reg l' Hreg IH]; intros i l.
  - apply builtin_key_is_ID.
  - rewrite lookup_Register. destruct (decide (ID l' = i)) as [<-|].
    + by intros [= <-].
    + apply IH.
Qed.

(** Every built-in language is found by [lookup], [Parse] and
    [MustParse] of the identifier it is registered under. *)
Theorem builtin_found_by_ID (i : string) (l : Language) :
  languages !! i = Some l →
  lookup languages i = Some l ∧ Parse languages i = Some l
  ∧ MustParse languages i = inl l.
Proof.
  intros H. pose proof H as H'. apply elem_of_list_to_map_2 in H'.
  repeat (apply elem_of_cons in H'; destruct H' as [H'|H'];
          [injection H' as -> ->; repeat split; vm_compute; reflexivity|]).
  by apply elem_of_nil in H'.
Qed.

(** [newSet] returns the set of its arguments. *)
Theorem newSet_members (cats : list Plural.Category) (c : Plural.Category) :
  c ∈ newSet cats ↔ c ∈ cats.
Proof.
  unfold newSet.
  assert (G : ∀ acc : gset Plural.Category,
             c ∈ foldl (λ set pc, {[pc]} ∪ set) acc cats ↔ c ∈ cats ∨ c ∈ acc).
  { induction cats as [|x cats IH]; intros acc; simpl.
    - rewrite elem_of_nil. tauto.
    - rewrite IH, elem_of_cons, elem_of_union, elem_of_singleton. tauto. }
  rewrite G, elem_of_empty. tauto.
Qed.

(** For a built-in language [PluralCategory] returns [plural.Invalid]
    exactly when it returns an error. *)
Theorem PluralCategory_Invalid_iff_error
    (i : string) (l : Language) (number : Plural.NumericInput) :
  languages !! i = Some l →
  fst (PluralCategory l number) = Plural.Invalid
  ↔ snd (PluralCategory l number) ≠ None.
Proof.
  intros H. unfold PluralCategory.
  destruct (Plural.NewOperands number) as [ops|err]; simpl.
  - split; [|done]. intros E. by apply (builtin_never_Invalid i l ops H) in E.
  - done.
Qed.

(** The declared sets of the table are tight: every category a built-in
    language declares is returned by its plural function for some operand
    set. *)
Theorem declared_categories_attained
    (i : string) (l : Language) (c : Plural.Category) :
  languages !! i = Some l → c ∈ PluralCategories l →
  ∃ ops, PluralFunc l ops = c.
Proof.
  intros H Hc. apply elem_of_list_to_map_2 in H.
  repeat (apply elem_of_cons in H; destruct H as [H|H];
          [injection H as -> ->; apply elem_of_newSet in Hc; simpl in Hc;
           repeat (apply elem_of_cons in Hc; destruct Hc as [->|Hc];
                   [first [ by exists (int_ops 0) | by exists (int_ops 1)
                          | by exists (int_ops 2) | by exists (int_ops 3)
                          | by exists (int_ops 11) | by exists (int_ops 100)
                          | by exists one_and_a_half ]|]);
           by apply elem_of_nil in Hc|]).
  by apply elem_of_nil in H.
Qed.

Lemma rem_add_100 (i : Z) :
  (0 ≤ i)%Z →
  Z.rem (i + 100) 100 = Z.rem i 100 ∧ Z.rem (i + 100) 10 = Z.rem i 10.
Proof.
  intros Hi. rewrite !Z.rem_mod_nonneg by lia. split.
  - replace (i + 100)%Z with (i + 1 * 100)%Z by lia. apply Z.mod_add. lia.
  - replace (i + 100)%Z with (i + 10 * 10)%Z by lia. apply Z.mod_add. lia.
Qed.

(** From 3 on, the Arabic category of an integer operand only depends on
    the operand modulo 100. *)
Theorem ar_PluralFunc_periodic (ops ops' : Plural.Operands) :
  (3 ≤ Plural.I ops)%Z → Plural.I ops' = (Plural.I ops + 100)%Z →
  Plural.W ops' = Plural.W ops →
  ar_PluralFunc ops' = ar_PluralFunc ops.
Proof.
  intros H3 HI HW.
  destruct (rem_add_100 (Plural.I ops) ltac:(lia)) as [H100 _].
  unfold ar_PluralFunc. rewrite HW, HI, H100.
  destruct (Plural.W ops =? 0)%Z; [|done].
  repeat match goal with
  | |- context [(?a =? ?b)%Z] => destruct (Z.eqb_spec a b); try lia
  end. done.
Qed.

(** The Lithuanian category only depends on the fraction digits and on
    the integer operand modulo 100. *)
Theorem lt_PluralFunc_periodic (ops ops' : Plural.Operands) :
  (0 ≤ Plural.I ops)%Z → Plural.I ops' = (Plural.I ops + 100)%Z →
  Plural.F ops' = Plural.F ops →
  lt_PluralFunc ops' = lt_PluralFunc ops.
Proof.
  intros Hi HI HF.
  destruct (rem_add_100 (Plural.I ops) Hi) as [H100 H10].
  unfold lt_PluralFunc. by rewrite HF, HI, H100, H10.
Qed.

End RegistryFacts.

(** * More on package i18n *)

Section I18nMore.
Import I18n.
Variable Id : string → string → string.

(** The inner map of every locale after a registration. *)
Lemma AddTranslation_inner locale context content translation st l :
  translations (snd (AddTranslation Id locale context content translation st))
    !! l
  = if decide (locale = l)
    then Some (<[Id context content := translation]>
                 (default ∅ (translations st !! l)))
    else translations st !! l.
Proof.
  rewrite AddTranslation_translations.
  destruct (decide (locale = l)) as [->|].
  - by rewrite lookup_insert_eq.
  - by rewrite lookup_insert_ne.
Qed.

(** Registrations under different keys commute: the state does not
    depend on their order. *)
Theorem AddTranslation_commute
    (st : State) (l1 c1 k1 t1 l2 c2 k2 t2 : string) :
  (l1, Id c1 k1) ≠ (l2, Id c2 k2) →
  snd (AddTranslation Id l2 c2 k2 t2 (snd (AddTranslation Id l1 c1 k1 t1 st)))
  = snd (AddTranslation Id l1 c1 k1 t1 (snd (AddTranslation Id l2 c2 k2 t2 st))).
Proof.
  intros Hne. apply State_eq; [reflexivity|]. apply map_eq. intros l.
  rewrite !AddTranslation_inner.
  destruct (decide (l2 = l)) as [->|H2], (decide (l1 = l)) as [->|H1];
    simpl; try done.
  f_equal. apply insert_insert_ne. intros E. apply Hne. by rewrite E.
Qed.

Lemma NewMessage_eq (st : State) (content context : string) :
  NewMessage Id content context st
  = ({| id := Id context content |},
     snd (AddTranslation Id defaultLocale context content content st)).
Proof. reflexivity. Qed.

(** Creating the same message twice returns the same message and
    leaves the state as after the first creation. *)
Theorem NewMessage_idempotent (st : State) (content context : string) :
  NewMessage Id content context (snd (NewMessage Id content context st))
  = NewMessage Id content context st.
Proof.
  rewrite !NewMessage_eq. cbn [snd]. f_equal.
  apply State_eq; [reflexivity|]. apply map_eq. intros l.
  rewrite !AddTranslation_inner.
  destruct (decide (defaultLocale = l)) as [<-|]; [|done].
  simpl. by rewrite insert_insert_eq.
Qed.

(** [NewMessage] does not touch a translation registered before it: when
    the current locale is not the default one and already holds a
    translation of the message, the new message prints as that
    translation. *)
Theorem NewMessage_keeps_translation
    (st : State) (content context t : string) :
  currentLocale st ≠ defaultLocale →
  entry st (currentLocale st) (Id context content) = Some t →
  Message_String (fst (NewMessage Id content context st))
    (snd (NewMessage Id content context st)) = t.
Proof.
  intros Hcur Ht. rewrite NewMessage_eq. cbn [fst snd].
  unfold Message_String. rewrite AddTranslation_currentLocale. cbn [id].
  rewrite entry_AddTranslation, decide_False by (intros [? _]; congruence).
  by rewrite Ht.
Qed.

End I18nMore.

(** Concrete runs of the theorems above. *)

Lemma Parse_no_delimiter_witness :
  Language.free_of Language.is_delimiter "pt_BR"
  ∧ Language.Parse Language.languages "pt_BR"
    = Language.lookup Language.languages "pt_BR".
Proof.
  assert (H : Language.free_of Language.is_delimiter "pt_BR")
    by (repeat constructor).
  split; [exact H | exact (Parse_no_delimiter Language.languages "pt_BR" H)].
Defined.

Lemma Parse_first_candidate_witness :
  Language.lookup Language.languages "en-US" = Some Language.en
  ∧ Language.Parse Language.languages
      ("locales/" ++ "en-US" ++ String "."%char "json")
    = Some Language.en.
Proof.
  assert (H : Language.lookup Language.languages "en-US" = Some Language.en)
    by (vm_compute; reflexivity).
  split; [exact H|].
  apply (Parse_first_candidate Language.languages "locales/" "en-US" "json"
           "."%char Language.en).
  - repeat constructor.
  - right. exists "locales", "/"%char. split; reflexivity.
  - repeat constructor.
  - reflexivity.
  - exact H.
Defined.

Lemma Parse_tail_ignored_witness :
  Language.Parse Language.languages ("xx" ++ String ","%char "en")
  = Language.Parse Language.languages ("xx" ++ String ","%char "").
Proof.
  apply (Parse_tail_ignored Language.languages "xx" "en" ","%char).
  - reflexivity.
  - repeat constructor.
Defined.

Lemma Parse_returns_registered_witness :
  Language.Parse Language.languages "en-US,fr;q=0.9" = Some Language.en
  ∧ ∃ i, Language.languages !! i = Some Language.en.
Proof.
  assert (H : Language.Parse Language.languages "en-US,fr;q=0.9"
              = Some Language.en) by (vm_compute; reflexivity).
  split; [exact H|].
  exact (Parse_returns_registered Language.languages "en-US,fr;q=0.9"
           Language.en H).
Defined.

Lemma lookup_returns_ancestor_witness :
  Language.lookup Language.only_pt "pt-BR-nonstandard" = Some Language.pt
  ∧ ∃ m, Language.only_pt
           !! substring 0 m (Language.normalize "pt-BR-nonstandard")
         = Some Language.pt.
Proof.
  assert (H : Language.lookup Language.only_pt "pt-BR-nonstandard"
              = Some Language.pt) by (vm_compute; reflexivity).
  split; [exact H|].
  exact (lookup_returns_ancestor Language.only_pt "pt-BR-nonstandard"
           Language.pt H).
Defined.

Lemma lookup_normal_form_witness :
  Language.normalize " pt_BR" = Language.normalize "pt-BR"
  ∧ Language.lookup Language.languages " pt_BR"
    = Language.lookup Language.languages "pt-BR".
Proof.
  assert (H : Language.normalize " pt_BR" = Language.normalize "pt-BR")
    by (vm_compute; reflexivity).
  split; [exact H|].
  exact (lookup_normal_form Language.languages " pt_BR" "pt-BR" H).
Defined.

Lemma Register_then_lookup_witness :
  Language.normalize (Language.ID Language.pt) = Language.ID Language.pt
  ∧ Language.lookup (Language.Register Language.pt ∅)
      (Language.ID Language.pt)
    = Some Language.pt.
Proof.
  assert (H : Language.normalize (Language.ID Language.pt)
              = Language.ID Language.pt) by (vm_compute; reflexivity).
  split; [exact H | exact (Register_then_lookup ∅ Language.pt H)].
Defined.

Lemma registry_key_is_ID_witness :
  Language.Register Language.en Language.languages !! "en" = Some Language.en
  ∧ Language.Language_String Language.en = "en".
Proof.
  assert (H : Language.Register Language.en Language.languages !! "en"
              = Some Language.en) by (vm_compute; reflexivity).
  split; [exact H|].
  apply (registry_key_is_ID (Language.Register Language.en Language.languages)
           "en" Language.en); [|exact H].
  apply Language.reachable_Register, Language.reachable_builtin.
Defined.

Lemma builtin_found_by_ID_witness :
  Language.languages !! "en" = Some Language.en
  ∧ Language.lookup Language.languages "en" = Some Language.en
  ∧ Language.Parse Language.languages "en" = Some Language.en
  ∧ Language.MustParse Language.languages "en" = inl Language.en.
Proof.
  assert (H : Language.languages !! "en" = Some Language.en)
    by (vm_compute; reflexivity).
  split; [exact H | exact (builtin_found_by_ID "en" Language.en H)].
Defined.

Lemma PluralCategory_Invalid_iff_error_witness :
  Language.languages !! "en" = Some Language.en
  ∧ (fst (Language.PluralCategory Language.en (Plural.StringInput "12.3.4"))
     = Plural.Invalid
     ↔ snd (Language.PluralCategory Language.en (Plural.StringInput "12.3.4"))
       ≠ None).
Proof.
  assert (H : Language.languages !! "en" = Some Language.en)
    by (vm_compute; reflexivity).
  split; [exact H|].
  exact (PluralCategory_Invalid_iff_error "en" Language.en
           (Plural.StringInput "12.3.4") H).
Defined.

Lemma declared_categories_attained_witness :
  Language.languages !! "en" = Some Language.en
  ∧ Plural.One ∈ Language.PluralCategories Language.en
  ∧ ∃ ops, Language.PluralFunc Language.en ops = Plural.One.
Proof.
  assert (H : Language.languages !! "en" = Some Language.en)
    by (vm_compute; reflexivity).
  assert (Hc : Plural.One ∈ Language.PluralCategories Language.en)
    by (vm_compute; reflexivity).
  split; [exact H|]. split; [exact Hc|].
  exact (declared_categories_attained "en" Language.en Plural.One H Hc).
Defined.

Lemma ar_PluralFunc_periodic_witness :
  Language.ar_PluralFunc (Language.int_ops 111)
  = Language.ar_PluralFunc (Language.int_ops 11).
Proof.
  apply ar_PluralFunc_periodic; [vm_compute; discriminate | reflexivity..].
Defined.

Lemma lt_PluralFunc_periodic_witness :
  Language.lt_PluralFunc (Language.int_ops 112)
  = Language.lt_PluralFunc (Language.int_ops 12).
Proof.
  apply lt_PluralFunc_periodic; [vm_compute; discriminate | reflexivity..].
Defined.

Lemma AddTranslation_commute_witness :
  ("fr", I18n.sample_Id "greeting" "Hello")
  ≠ ("de", I18n.sample_Id "greeting" "Hello")
  ∧ snd (I18n.AddTranslation I18n.sample_Id "de" "greeting" "Hello" "Hallo"
           (snd (I18n.AddTranslation I18n.sample_Id "fr" "greeting" "Hello"
                   "Bonjour" I18n.init)))
    = snd (I18n.AddTranslation I18n.sample_Id "fr" "greeting" "Hello" "Bonjour"
             (snd (I18n.AddTranslation I18n.sample_Id "de" "greeting" "Hello"
                     "Hallo" I18n.init))).
Proof.
  assert (H : ("fr", I18n.sample_Id "greeting" "Hello")
              ≠ ("de", I18n.sample_Id "greeting" "Hello"))
    by (intros E; discriminate E).
  split; [exact H|].
  exact (AddTranslation_commute I18n.sample_Id I18n.init
           "fr" "greeting" "Hello" "Bonjour" "de" "greeting" "Hello" "Hallo" H).
Defined.

Lemma NewMessage_keeps_translation_witness :
  let st := I18n.SetLocale "fr"
              (snd (I18n.AddTranslation I18n.sample_Id "fr" "greeting" "Hello"
                      "Bonjour" I18n.init)) in
  I18n.entry st (I18n.currentLocale st) (I18n.sample_Id "greeting" "Hello")
  = Some "Bonjour"
  ∧ I18n.Message_String
      (fst (I18n.NewMessage I18n.sample_Id "Hello" "greeting" st))
      (snd (I18n.NewMessage I18n.sample_Id "Hello" "greeting" st))
    = "Bonjour".
Proof.
  split; [vm_compute; reflexivity|].
  apply NewMessage_keeps_translation; [discriminate | vm_compute; reflexivity].
Defined.

(** C9, as stated, fails: after [NewMessage("Hello", "greeting")],
    [AddTranslation("", "greeting", "Hello", "Howdy")] and
    [SetLocale("fr")], the French locale has no translation of the
    message and [Message.String] returns "Howdy", not the content. *)
Lemma NewMessage_round_trip_overwritten :
  let m := fst (I18n.NewMessage I18n.sample_Id "Hello" "greeting" I18n.init) in
  let st := I18n.run I18n.sample_Id
              [I18n.CallAddTranslation "" "greeting" "Hello" "Howdy";
               I18n.CallSetLocale "fr"]
              (snd (I18n.NewMessage I18n.sample_Id "Hello" "greeting"
                      I18n.init)) in
  I18n.entry st (I18n.currentLocale st) (I18n.id m) = None
  ∧ I18n.Message_String m st = "Howdy"
  ∧ ¬ I18n.round_trip_always I18n.sample_Id.
Proof.
  split; [vm_compute; reflexivity|]. split; [vm_compute; reflexivity|].
  intros H.
  specialize (H I18n.init "Hello" "greeting"
                [I18n.CallAddTranslation "" "greeting" "Hello" "Howdy";
                 I18n.CallSetLocale "fr"]).
  vm_compute in H. discriminate (H eq_refl).
Qed.

(** C5, as stated, fails: [Register] accepts the definition "xx", which
    declares [One] only; it is then a registered language, found by
    [lookup], and [PluralCategory] of the integer 1 returns [Few] without
    an error, a category it does not declare. *)
Lemma Register_accepts_undeclared_category :
  let reg := Language.Register Language.undeclared_few Language.languages in
  reg !! "xx" = Some Language.undeclared_few
  ∧ Language.lookup reg "xx" = Some Language.undeclared_few
  ∧ Language.PluralCategory Language.undeclared_few (Plural.IntInput 1)
    = (Plural.Few, None)
  ∧ (Plural.Few ∉ Language.PluralCategories Language.undeclared_few)
  ∧ ¬ Language.declared_or_other Language.undeclared_few Plural.Few.
Proof.
  assert (Plural.Few ∈ Language.PluralCategories Language.undeclared_few
          → False) as Hnot.
  { intros H. apply elem_of_newSet in H.
    apply list_elem_of_singleton in H. discriminate H. }
  split; [vm_compute; reflexivity|]. split; [vm_compute; reflexivity|].
  split; [reflexivity|]. split; [exact Hnot|].
  intros [H|H]; [by apply Hnot | discriminate H].
Qed.
